(** * Shor's algorithm, classical simulation (simulShore.py)

    A shallow embedding of [find_order] and [shors_algorithm] and the
    properties the specification states about them.

    Python integers are unbounded, so they are modelled by [Z]; [%] and [//]
    are floor modulo and floor division, which is what [Z.modulo] and
    [Z.div] compute.  Exceptions are modelled by [outcome].  The ambient
    random generator and the standard output are modelled by [world], and
    code that touches them by the monad [M].  The two floating-point
    expressions of the perfect-power check are left abstract ([FloatOps]).
    String conversion of an integer raises [ValueError] beyond the
    interpreter's digit limit ([int_max_str_digits]), so that the narration
    of a verbose call can fail. *)

From Stdlib Require Import ZArith List String Bool Lia DecimalString Znumtheory.
Import ListNotations.
Local Open Scope Z_scope.

(** ** Python runtime fragments *)

Inductive exn : Set :=
| ZeroDivisionError
| ValueError
| OverflowError
| RecursionError.

Inductive outcome (A : Type) : Type :=
| Ret (a : A)
| Raise (e : exn).
Arguments Ret {A} a.
Arguments Raise {A} e.

(** [range(lo, hi)] *)
Definition py_range (lo hi : Z) : list Z :=
  map (fun i => lo + Z.of_nat i) (seq 0 (Z.to_nat (hi - lo))).

(** [x % n] *)
Definition py_mod (x n : Z) : outcome Z :=
  if n =? 0 then Raise ZeroDivisionError else Ret (x mod n).

(** [sys.int_max_str_digits]: the default of CPython 3.11 and later, which
    the program leaves as it is. *)
Definition int_max_str_digits : Z := 4300.

(** The least integer with more than [int_max_str_digits] digits. *)
Definition str_bound : Z := Eval vm_compute in 10 ^ int_max_str_digits.

(** [str(z)], as used by the f-strings: a [ValueError] for an integer of
    more than [int_max_str_digits] digits, whatever its sign. *)
Definition str (z : Z) : outcome string :=
  if str_bound <=? Z.abs z then Raise ValueError
  else Ret (NilZero.string_of_int (Z.to_int z)).

(** An integer that [str] converts. *)
Definition printable (z : Z) : Prop := Z.abs z < str_bound.

(** [s * k] on strings *)
Fixpoint str_mul (s : string) (k : nat) : string :=
  match k with
  | O => EmptyString
  | S k' => (s ++ str_mul s k')%string
  end.

Definition nl : string := String (Ascii.ascii_of_nat 10) EmptyString.

(** ** Order Finder *)

(** The [for] loop of [find_order]; [rs] is what is left of
    [range(1, max_order + 1)], [result] the running product.  The second
    component counts the iterations that were started. *)
Fixpoint find_order_loop (a n : Z) (rs : list Z) (result : Z) (iters : nat)
  : outcome (option Z) * nat :=
  match rs with
  | [] => (Ret None, iters)
  | r :: rs' =>
      match py_mod (result * a) n with
      | Raise e => (Raise e, S iters)
      | Ret result' =>
          if result' =? 1 then (Ret (Some r), S iters)
          else find_order_loop a n rs' result' (S iters)
      end
  end.

(** The bound [find_order] scans up to: [max_order], or [n] by default. *)
Definition bound_of (n : Z) (max_order : option Z) : Z :=
  match max_order with None => n | Some m => m end.

Definition find_order_run (a n : Z) (max_order : option Z)
  : outcome (option Z) * nat :=
  let max_order := match max_order with None => n | Some m => m end in
  find_order_loop a n (py_range 1 (max_order + 1)) 1 0.

Definition find_order (a n : Z) (max_order : option Z) : outcome (option Z) :=
  fst (find_order_run a n max_order).

Definition find_order_iterations (a n : Z) (max_order : option Z) : nat :=
  snd (find_order_run a n max_order).

(** ** The world: random generator and standard output *)

Record world : Type := World {
  entropy : nat -> Z;     (* the raw values the generator will deliver *)
  cursor : nat;           (* how many of them have been consumed *)
  drawn : list Z;         (* the values [randint] has returned, in order *)
  stdout : list string    (* one entry per [print] call *)
}.

Definition M (A : Type) : Type := world -> outcome A * world.

Definition ret {A} (x : A) : M A := fun w => (Ret x, w).

Definition raise {A} (e : exn) : M A := fun w => (Raise e, w).

Definition bind {A B} (m : M A) (k : A -> M B) : M B :=
  fun w =>
    match m w with
    | (Ret x, w') => k x w'
    | (Raise e, w') => (Raise e, w')
    end.

Definition lift {A} (o : outcome A) : M A := fun w => (o, w).

Notation "x <- m ;; k" := (bind m (fun x => k))
  (at level 61, m at next level, right associativity).
Notation "m ;; k" := (bind m (fun _ => k))
  (at level 61, right associativity).

(** [print(s)] *)
Definition print (s : string) : M unit :=
  fun w =>
    (Ret tt, {| entropy := entropy w; cursor := cursor w;
                drawn := drawn w; stdout := stdout w ++ [s] |}).

(** An f-string is a list of pieces: literal text and [{z}] fields, which
    are converted with [str] from left to right. *)
Inductive piece : Type :=
| Lit (s : string)
| Int (z : Z).

Fixpoint fmt (pieces : list piece) : outcome string :=
  match pieces with
  | [] => Ret EmptyString
  | Lit s :: rest =>
      match fmt rest with
      | Ret t => Ret (s ++ t)%string
      | Raise e => Raise e
      end
  | Int z :: rest =>
      match str z with
      | Ret s =>
          match fmt rest with
          | Ret t => Ret (s ++ t)%string
          | Raise e => Raise e
          end
      | Raise e => Raise e
      end
  end.

(** The integers an f-string converts. *)
Fixpoint numbers (pieces : list piece) : list Z :=
  match pieces with
  | [] => []
  | Lit _ :: rest => numbers rest
  | Int z :: rest => z :: numbers rest
  end.

(** [if verbose: print(f"..."); print(f"...")]: each line is formatted,
    then printed, in order; nothing is formatted when [verbose] is off. *)
Fixpoint say (verbose : bool) (lines : list (list piece)) : M unit :=
  match lines with
  | [] => ret tt
  | line :: rest =>
      (if verbose then s <- lift (fmt line) ;; print s else ret tt) ;;
      say verbose rest
  end.

(** [random.randint(lo, hi)]: an integer of [lo..hi], both ends included;
    an empty range is a [ValueError]. *)
Definition randint (lo hi : Z) : M Z :=
  fun w =>
    if hi <? lo then (Raise ValueError, w)
    else
      let a := lo + entropy w (cursor w) mod (hi - lo + 1) in
      (Ret a, {| entropy := entropy w; cursor := S (cursor w);
                 drawn := drawn w ++ [a]; stdout := stdout w |}).

(** How a loop that contains a [return] ends. *)
Inductive flow (R A : Type) : Type :=
| Returned (v : R)      (* a [return] inside the loop body *)
| Finished (x : A).     (* the loop ran out; [x] is the state it leaves *)
Arguments Returned {R A} v.
Arguments Finished {R A} x.

(** ** Floating point

    The perfect-power check evaluates [int(math.log2(n))] and
    [round(n ** (1 / k))] in double precision.  Their values depend on the
    platform's mathematical library, so the engine is parameterised by
    them; each may raise ([ValueError] for the logarithm of a non-positive
    number, [OverflowError] for an integer too large for a float).  A
    rounded root is never negative, hence [N]: the float power of a
    non-negative base is non-negative, and a negative base gives a complex
    number, which [round] rejects.  What does not depend on the platform
    is the range of a double: an integer of [float_limit] or more has
    none, so that the power then raises [OverflowError], whatever the
    exponent; and the integer part of a logarithm, being that of a double,
    is below [float_limit] in absolute value. *)
Definition float_limit : Z := 2 ^ 1024.

Class FloatOps : Type := {
  log2_int : Z -> outcome Z;      (* [int(math.log2(n))] *)
  root_round : Z -> Z -> outcome N;  (* [round(n ** (1 / k))] *)
  root_overflow :
    forall n k, float_limit <= n -> root_round n k = Raise OverflowError;
  log2_range :
    forall n top, log2_int n = Ret top -> Z.abs top < float_limit
}.

(** Exact arithmetic: what the two expressions evaluate to when no rounding
    error occurs. *)
Fixpoint floor_root_bits (n k : Z) (bits : nat) (acc : Z) : Z :=
  match bits with
  | O => acc
  | S b =>
      let cand := acc + 2 ^ Z.of_nat b in
      floor_root_bits n k b (if cand ^ k <=? n then cand else acc)
  end.

Definition floor_root (n k : Z) : Z :=
  floor_root_bits n k (S (Z.to_nat (Z.log2 n))) 0.

Definition nearest_root (n k : Z) : Z :=
  let b := floor_root n k in
  if (2 * b + 1) ^ k <=? 2 ^ k * n then b + 1 else b.

Definition ideal_root (n k : Z) : outcome N :=
  if float_limit <=? n then Raise OverflowError
  else Ret (Z.to_N (nearest_root n k)).

Definition ideal_log2 (n : Z) : outcome Z :=
  if n <=? 0 then Raise ValueError
  else if Z.log2 n <? float_limit then Ret (Z.log2 n)
  else Raise OverflowError.

Definition ideal_float : FloatOps.
Proof.
  refine {| log2_int := ideal_log2; root_round := ideal_root |}.
  - intros n k H. unfold ideal_root.
    destruct (Z.leb_spec float_limit n) as [_ | Hlt]; [reflexivity|].
    exfalso. exact (Z.lt_irrefl n (Z.lt_le_trans _ _ _ Hlt H)).
  - intros n top. unfold ideal_log2.
    destruct (n <=? 0); [discriminate|].
    destruct (Z.ltb_spec (Z.log2 n) float_limit) as [Hlt | _]; [|discriminate].
    intros E. injection E as <-.
    rewrite Z.abs_eq by apply Z.log2_nonneg. exact Hlt.
Defined.

(** ** Factor Engine *)

Definition rule : string := str_mul "=" 70.
Arguments rule : simpl never.

Definition max_attempts : Z := 10.

Section Engine.

Context {float_ops : FloatOps}.

(** Step 2, [for k in range(2, int(math.log2(n)) + 1)]; [ks] is what is
    left of the range. *)
Fixpoint perfect_power_loop (n : Z) (verbose : bool) (ks : list Z)
  : M (flow (Z * Z) unit) :=
  match ks with
  | [] => ret (Finished tt)
  | k :: ks' =>
      root <- lift (root_round n k) ;;
      let a := Z.of_N root in
      if a ^ k =? n then
        say verbose
          [[Lit "✓ "; Int n; Lit " = "; Int a; Lit "^"; Int k];
           [Lit "  Factors: "; Int a; Lit " × "; Int (a ^ (k - 1))]] ;;
        ret (Returned (a, a ^ (k - 1)))
      else perfect_power_loop n verbose ks'
  end.

(** Steps 3 and 4, [for attempt in range(max_attempts)]; [a] is the local
    variable [a], which the loop leaves bound to the last draw. *)
Fixpoint sampling_loop (n : Z) (verbose : bool) (attempts : list Z) (a : Z)
  : M (flow (Z * Z) Z) :=
  match attempts with
  | [] => ret (Finished a)
  | attempt :: rest =>
      a <- randint 2 (n - 1) ;;
      let g := Z.gcd a n in
      say verbose
        [[Lit "  Attempt "; Int (attempt + 1); Lit ": a = "; Int a;
          Lit ", gcd("; Int a; Lit ", "; Int n; Lit ") = "; Int g]] ;;
      if negb (g =? 1) then
        say verbose
          [[Lit "✓ Found factor: "; Int g];
           [Lit "  "; Int n; Lit " = "; Int g; Lit " × "; Int (n / g)]] ;;
        ret (Returned (g, n / g))
      else sampling_loop n verbose rest a
  end.

Definition success_lines (n factor : Z) : list (list piece) :=
  [[Lit rule];
   [Lit "✓ Successfully factored "; Int n; Lit ":"];
   [Lit "  "; Int n; Lit " = "; Int factor; Lit " × "; Int (n / factor)];
   [Lit "  Verification: "; Int factor; Lit " × "; Int (n / factor);
    Lit " = "; Int (factor * (n / factor))];
   [Lit rule]].

(** Steps 5 to 10: what the call does with the base [a] the sampling loop
    left.  [retry n verbose] is the recursive call. *)
Definition use_period (retry : Z -> bool -> M (option (Z * Z)))
    (n : Z) (verbose : bool) (a : Z) : M (option (Z * Z)) :=
  say verbose
    [[Lit "✗ Could not find factor via gcd"; Lit nl];
     [Lit "Step 3: Find the period r (order of a modulo n)"]] ;;
  r <- lift (find_order a n None) ;;
  match r with
  | None =>
      say verbose [[Lit "✗ Could not find order"]] ;;
      ret None
  | Some r =>
      say verbose
        [[Lit "✓ Found order: "; Int a; Lit "^"; Int r; Lit " ≡ 1 (mod ";
          Int n; Lit ")"; Lit nl];
         [Lit "Step 4: Use the period to find factors"];
         [Lit "  a = "; Int a; Lit ", r = "; Int r]] ;;
      if r mod 2 =? 1 then
        say verbose
          [[Lit "✗ Order "; Int r; Lit " is odd, trying another a...";
            Lit nl]] ;;
        retry n false
      else
        say verbose
          [[Lit "✓ Order is even: r = "; Int r; Lit nl];
           [Lit "Step 5: Compute a^(r/2) mod n"]] ;;
        let x := a ^ (r / 2) mod n in
        say verbose
          [[Lit "  "; Int a; Lit "^("; Int r; Lit "//2) ≡ "; Int x;
            Lit " (mod "; Int n; Lit ")"; Lit nl];
           [Lit "Step 6: Check if x ≡ ±1 (mod n)"]] ;;
        if x =? n - 1 then
          say verbose
            [[Lit "✗ "; Int x; Lit " ≡ -1 (mod "; Int n;
              Lit "), trying another a..."; Lit nl]] ;;
          retry n false
        else
          say verbose
            [[Lit "✓ "; Int x; Lit " is not ±1 mod "; Int n; Lit nl];
             [Lit "Step 7: Find factors using gcd"]] ;;
          let factor1 := Z.gcd (x - 1) n in
          let factor2 := Z.gcd (x + 1) n in
          say verbose
            [[Lit "  gcd("; Int x; Lit " - 1, "; Int n; Lit ") = ";
              Int factor1];
             [Lit "  gcd("; Int x; Lit " + 1, "; Int n; Lit ") = ";
              Int factor2; Lit nl]] ;;
          if (1 <? factor1) && (factor1 <? n) then
            say verbose (success_lines n factor1) ;;
            ret (Some (factor1, n / factor1))
          else if (1 <? factor2) && (factor2 <? n) then
            say verbose (success_lines n factor2) ;;
            ret (Some (factor2, n / factor2))
          else
            say verbose
              [[Lit "✗ Could not find nontrivial factors, trying another a...";
                Lit nl]] ;;
            retry n false
  end.

(** The body of [shors_algorithm]. *)
Definition shors_body (retry : Z -> bool -> M (option (Z * Z)))
    (n : Z) (verbose : bool) : M (option (Z * Z)) :=
  say verbose
    [[Lit rule];
     [Lit "Shor's Algorithm - Classical Simulation"];
     [Lit rule];
     [Lit "Factoring: "; Int n; Lit nl]] ;;
  if n mod 2 =? 0 then
    say verbose
      [[Lit "✓ Number is even"];
       [Lit "  Factors: 2 × "; Int (n / 2)]] ;;
    ret (Some (2, n / 2))
  else
    say verbose [[Lit "Step 1: Check if n is a perfect power"]] ;;
    top <- lift (log2_int n) ;;
    pp <- perfect_power_loop n verbose (py_range 2 (top + 1)) ;;
    match pp with
    | Returned factors => ret (Some factors)
    | Finished _ =>
        say verbose
          [[Lit "✗ Not a perfect power"; Lit nl];
           [Lit "Step 2: Find a random number a where gcd(a, n) = 1"]] ;;
        s <- sampling_loop n verbose (py_range 0 max_attempts) 0 ;;
        match s with
        | Returned factors => ret (Some factors)
        | Finished a => use_period retry n verbose a
        end
    end.

(** [shors_algorithm(n, verbose)].  [depth] is the number of nested
    recursive calls the interpreter still allows; the call that would exceed
    it raises [RecursionError], as CPython does at its recursion limit. *)
Fixpoint shors_algorithm (depth : nat) (n : Z) (verbose : bool)
  : M (option (Z * Z)) :=
  match depth with
  | O => shors_body (fun _ _ => raise RecursionError) n verbose
  | S depth' => shors_body (shors_algorithm depth') n verbose
  end.

End Engine.

(** ** The examples *)

Definition bar : string := str_mul "█" 70.

(** The three lines printed before an example. *)
Definition banner (title : string) : list string :=
  [(nl ++ bar)%string; title; bar].

(** [main()]: four calls, each with the default [verbose=True]; their
    results are dropped.  [depth] is the recursion budget of each call. *)
Definition main {float_ops : FloatOps} (depth : nat) : M unit :=
  print (nl ++ bar)%string ;;
  print "Example 1: Factoring 15" ;;
  print bar ;;
  shors_algorithm depth 15 true ;;
  print (nl ++ bar)%string ;;
  print "Example 2: Factoring 21" ;;
  print bar ;;
  shors_algorithm depth 21 true ;;
  print (nl ++ bar)%string ;;
  print "Example 3: Factoring 35" ;;
  print bar ;;
  shors_algorithm depth 35 true ;;
  print (nl ++ bar)%string ;;
  print "Example 4: Factoring 91" ;;
  print bar ;;
  shors_algorithm depth 91 true ;;
  ret tt.

(** A world whose generator delivers [f 0], [f 1], ... *)
Definition fresh_world (f : nat -> Z) : world :=
  {| entropy := f; cursor := 0; drawn := []; stdout := [] |}.

(** ** The specification's words *)



Definition result_of {A} (r : outcome A * world) : outcome A := fst r.

Definition draws_made (w w' : world) : nat := (cursor w' - cursor w)%nat.

(** [(p, q)] is a factorization of [n] into nontrivial factors. *)
Definition nontrivial_pair (n p q : Z) : Prop :=
  p * q = n /\ 1 < p < n /\ 1 < q < n.

(** [w'] is [w] after the draws [new], and any amount of printing. *)
Definition extends (w w' : world) (new : list Z) : Prop :=
  entropy w' = entropy w /\
  cursor w' = (cursor w + List.length new)%nat /\
  drawn w' = drawn w ++ new.

(** The sampling loop ran out: [new] are its [max_attempts] draws, all of
    [2 .. n-1] and coprime to [n], and [a] is the last of them. *)
Definition exhausted (n : Z) (new : list Z) (a : Z) : Prop :=
  Z.of_nat (List.length new) = max_attempts /\
  Forall (fun d => 2 <= d <= n - 1 /\ Z.gcd d n = 1) new /\
  last new 0 = a.

(** The three conditions under which a call starts over: odd order,
    [x = n - 1], or both gcd candidates trivial. *)
Definition starts_over (n a r : Z) : Prop :=
  let x := a ^ (r / 2) mod n in
  let factor1 := Z.gcd (x - 1) n in
  let factor2 := Z.gcd (x + 1) n in
  r mod 2 = 1 \/
  x = n - 1 \/
  (~ 1 < factor1 < n /\ ~ 1 < factor2 < n).

(** The ways one call of [shors_algorithm] ends: [exit retry n verbose w o
    w'] says that the call on [n] started in [w] ends in [w'] with [o]. *)
Inductive exit {float_ops : FloatOps}
    (retry : Z -> bool -> M (option (Z * Z))) (n : Z) (verbose : bool)
    (w : world)
  : outcome (option (Z * Z)) -> world -> Prop :=
| exit_even w' :
    n mod 2 = 0 -> extends w w' [] ->
    exit retry n verbose w (Ret (Some (2, n / 2))) w'
| exit_log2_error e w' :
    n mod 2 <> 0 -> log2_int n = Raise e -> extends w w' [] ->
    exit retry n verbose w (Raise e) w'
| exit_root_error k e w' :
    n mod 2 <> 0 -> 2 <= k -> root_round n k = Raise e -> extends w w' [] ->
    exit retry n verbose w (Raise e) w'
| exit_perfect_power k a w' :
    n mod 2 <> 0 -> 2 <= k -> 0 <= a -> a ^ k = n -> extends w w' [] ->
    exit retry n verbose w (Ret (Some (a, a ^ (k - 1)))) w'
| exit_empty_range w' :
    n mod 2 <> 0 -> n - 1 < 2 -> extends w w' [] ->
    exit retry n verbose w (Raise ValueError) w'
| exit_shared_factor new a w' :
    n mod 2 <> 0 ->
    Z.of_nat (List.length new) <= max_attempts ->
    Forall (fun d => 2 <= d <= n - 1) new -> In a new ->
    Z.gcd a n <> 1 -> extends w w' new ->
    exit retry n verbose w (Ret (Some (Z.gcd a n, n / Z.gcd a n))) w'
| exit_no_order new a w' :
    n mod 2 <> 0 -> exhausted n new a -> extends w w' new ->
    find_order a n None = Ret None ->
    exit retry n verbose w (Ret None) w'
| exit_factor (factor : Z) new a r w' :
    n mod 2 <> 0 -> exhausted n new a -> extends w w' new ->
    find_order a n None = Ret (Some r) ->
    factor = Z.gcd (a ^ (r / 2) mod n - 1) n \/
    factor = Z.gcd (a ^ (r / 2) mod n + 1) n ->
    1 < factor < n ->
    exit retry n verbose w (Ret (Some (factor, n / factor))) w'
| exit_retry new a r w1 :
    n mod 2 <> 0 -> exhausted n new a -> extends w w1 new ->
    find_order a n None = Ret (Some r) ->
    starts_over n a r ->
    exit retry n verbose w (fst (retry n false w1)) (snd (retry n false w1))
| exit_narration new w' :
    verbose = true ->
    Z.of_nat (List.length new) <= max_attempts ->
    Forall (fun d => 2 <= d <= n - 1) new ->
    extends w w' new ->
    exit retry n verbose w (Raise ValueError) w'.

(** Two worlds whose generators will deliver the same values from now on. *)
Definition same_future (w1 w2 : world) : Prop :=
  forall i : nat,
    entropy w1 (cursor w1 + i)%nat = entropy w2 (cursor w2 + i)%nat.

(** Two worlds with the same generator in the same state: they differ in
    what was printed only. *)
Definition same_rng (w1 w2 : world) : Prop :=
  entropy w1 = entropy w2 /\ cursor w1 = cursor w2 /\ drawn w1 = drawn w2.

(** Two computations that return the same in worlds related by [R], and
    leave worlds related by [R]. *)
Definition related (R : world -> world -> Prop) {A} (m1 m2 : M A) : Prop :=
  forall w1 w2,
    R w1 w2 -> fst (m1 w1) = fst (m2 w2) /\ R (snd (m1 w1)) (snd (m2 w2)).


(** [w] after the lines [out] were printed. *)
Definition printed (w : world) (out : list string) : world :=
  {| entropy := entropy w; cursor := cursor w; drawn := drawn w;
     stdout := stdout w ++ out |}.

(** * Properties *)

(** ** [range] *)

Lemma py_range_nil (lo hi : Z) : hi <= lo -> py_range lo hi = [].
Proof.
  intros H. unfold py_range.
  replace (Z.to_nat (hi - lo)) with 0%nat by lia. reflexivity.
Qed.

Lemma py_range_cons (lo hi : Z) :
  lo < hi -> py_range lo hi = lo :: py_range (lo + 1) hi.
Proof.
  intros H. unfold py_range.
  replace (Z.to_nat (hi - lo)) with (S (Z.to_nat (hi - (lo + 1)))) by lia.
  cbn [seq map]. f_equal; [lia|].
  rewrite <- seq_shift, map_map.
  apply map_ext. intros i. lia.
Qed.

Lemma py_range_length (lo hi : Z) :
  List.length (py_range lo hi) = Z.to_nat (hi - lo).
Proof. unfold py_range. now rewrite length_map, length_seq. Qed.

Lemma py_range_app (lo mid hi : Z) :
  lo <= mid <= hi -> py_range lo hi = py_range lo mid ++ py_range mid hi.
Proof.
  intros H.
  remember (Z.to_nat (mid - lo)) as len eqn:E.
  revert lo H E. induction len as [|len IH]; intros lo H E.
  - assert (mid = lo) by lia. subst mid.
    now rewrite (py_range_nil lo lo) by lia.
  - rewrite (py_range_cons lo hi), (py_range_cons lo mid) by lia.
    cbn [app]. f_equal. apply IH; lia.
Qed.

Lemma py_range_In (lo hi x : Z) : In x (py_range lo hi) <-> lo <= x < hi.
Proof.
  unfold py_range. rewrite in_map_iff. split.
  - intros (i & <- & Hi). apply in_seq in Hi. lia.
  - intros H. exists (Z.to_nat (x - lo)). split; [lia|].
    apply in_seq. lia.
Qed.

(** ** Modular arithmetic *)

Lemma pow_step_mod (a n k v : Z) :
  n <> 0 -> 1 <= k -> v mod n = a ^ (k - 1) mod n ->
  (v * a) mod n = a ^ k mod n.
Proof.
  intros Hn Hk Hv.
  rewrite <- Z.mul_mod_idemp_l, Hv, Z.mul_mod_idemp_l by assumption.
  f_equal. replace k with (Z.succ (k - 1)) at 2 by lia.
  rewrite Z.pow_succ_r by lia. ring.
Qed.

Lemma pow_one_mod_coprime (a n r : Z) :
  1 <= n -> 1 <= r -> a ^ r mod n = 1 -> Z.gcd a n = 1.
Proof.
  intros Hn Hr H.
  assert (Hg : (Z.gcd a n | 1)).
  { pose proof (Z.div_mod (a ^ r) n ltac:(lia)) as Hdm. rewrite H in Hdm.
    replace 1 with (a ^ r - n * (a ^ r / n)) by lia.
    apply Z.divide_sub_r.
    - replace r with (Z.succ (r - 1)) by lia.
      rewrite Z.pow_succ_r by lia.
      apply Z.divide_mul_l, Z.gcd_divide_l.
    - apply Z.divide_mul_l, Z.gcd_divide_r. }
  apply Z.divide_1_r_nonneg in Hg; [assumption | apply Z.gcd_nonneg].
Qed.

(** ** Order Finder *)

(** What the scan of [lo .. hi-1] finds, given that [result] holds
    [a ^ (lo - 1)] modulo [n]. *)
Lemma find_order_loop_scan (a n : Z) (Hn : n <> 0) :
  forall (len : nat) (lo hi result : Z) (iters : nat),
    Z.to_nat (hi - lo) = len -> 1 <= lo ->
    result mod n = a ^ (lo - 1) mod n ->
    (exists r, lo <= r < hi /\ a ^ r mod n = 1 /\
               (forall k, lo <= k < r -> a ^ k mod n <> 1) /\
               find_order_loop a n (py_range lo hi) result iters
               = (Ret (Some r), (iters + Z.to_nat (r - lo + 1))%nat))
    \/ ((forall k, lo <= k < hi -> a ^ k mod n <> 1) /\
        find_order_loop a n (py_range lo hi) result iters
        = (Ret None, (iters + len)%nat)).
Proof.
  induction len as [|len IH]; intros lo hi result iters Hlen Hlo Hres.
  - right. split; [intros k Hk; lia|].
    rewrite py_range_nil by lia. cbn. f_equal. lia.
  - rewrite py_range_cons by lia. cbn [find_order_loop].
    unfold py_mod. destruct (Z.eqb_spec n 0) as [|_]; [contradiction|].
    rewrite (pow_step_mod a n lo result) by assumption.
    destruct (Z.eqb_spec (a ^ lo mod n) 1) as [H1|H1].
    + left. exists lo. repeat split; try lia.
      f_equal. lia.
    + destruct (IH (lo + 1) hi (a ^ lo mod n) (S iters)) as
        [(r & Hr & Hpow & Hmin & Heq) | (Hnone & Heq)].
      * lia.
      * lia.
      * rewrite Z.mod_mod by assumption. f_equal. f_equal. lia.
      * left. exists r. repeat split; try lia; try assumption.
        -- intros k Hk. destruct (Z.eq_dec k lo) as [->|]; [assumption|].
           apply Hmin. lia.
        -- rewrite Heq. f_equal. lia.
      * right. split.
        -- intros k Hk. destruct (Z.eq_dec k lo) as [->|]; [assumption|].
           apply Hnone. lia.
        -- rewrite Heq. f_equal. lia.
Qed.

Lemma find_order_loop_prefix (a n r : Z) :
  forall (l1 l2 : list Z) (result : Z) (iters : nat),
    fst (find_order_loop a n l1 result iters) = Ret (Some r) ->
    fst (find_order_loop a n (l1 ++ l2) result iters) = Ret (Some r).
Proof.
  induction l1 as [|k l1 IH]; intros l2 result iters H.
  - discriminate H.
  - cbn [app find_order_loop] in *.
    destruct (py_mod (result * a) n) as [v|e]; [|exact H].
    destruct (v =? 1); [exact H|]. now apply IH.
Qed.

Lemma find_order_run_spec (a n : Z) (max_order : option Z) :
  n <> 0 ->
  (exists r, 1 <= r <= bound_of n max_order /\ a ^ r mod n = 1 /\
             (forall k, 1 <= k < r -> a ^ k mod n <> 1) /\
             find_order_run a n max_order = (Ret (Some r), Z.to_nat r))
  \/ ((forall k, 1 <= k <= bound_of n max_order -> a ^ k mod n <> 1) /\
      find_order_run a n max_order
      = (Ret None, Z.to_nat (bound_of n max_order))).
Proof.
  intros Hn. unfold find_order_run. fold (bound_of n max_order).
  set (m := bound_of n max_order).
  destruct (find_order_loop_scan a n Hn (Z.to_nat (m + 1 - 1)) 1 (m + 1) 1 0)
    as [(r & Hr & Hpow & Hmin & Heq) | (Hnone & Heq)];
    try reflexivity; try lia.
  - left. exists r. repeat split; try lia; try assumption.
    rewrite Heq. f_equal. lia.
  - right. split.
    + intros k Hk. apply Hnone. lia.
    + rewrite Heq. f_equal. lia.
Qed.

(** C2: for every n >= 2, every a in [1, n-1] with gcd(a, n) = 1 and every
    positive bound max_order, [find_order a n max_order] returns the
    smallest positive r with a^r mod n = 1 when such an r <= max_order
    exists, and None otherwise. *)
Theorem find_order_smallest (a n max_order : Z) :
  2 <= n -> 1 <= a <= n - 1 -> Z.gcd a n = 1 -> 0 < max_order ->
  (forall r,
      find_order a n (Some max_order) = Ret (Some r) <->
      1 <= r <= max_order /\ a ^ r mod n = 1 /\
      (forall k, 1 <= k < r -> a ^ k mod n <> 1))
  /\ (find_order a n (Some max_order) = Ret None <->
      forall k, 1 <= k <= max_order -> a ^ k mod n <> 1).
Proof.
  intros Hn _ _ _. unfold find_order.
  destruct (find_order_run_spec a n (Some max_order) ltac:(lia))
    as [(r & Hr & Hpow & Hmin & Heq) | (Hnone & Heq)];
    rewrite Heq; cbn [fst bound_of] in *.
  - split.
    + intros r'. split.
      * intros E. injection E as <-. auto.
      * intros (Hr' & Hpow' & Hmin'). do 2 f_equal.
        destruct (Z.lt_trichotomy r r') as [Hlt | [E | Hgt]]; [|exact E|].
        -- exfalso. apply (Hmin' r); [lia | exact Hpow].
        -- exfalso. apply (Hmin r'); [lia | exact Hpow'].
    + split; [discriminate|].
      intros Hall. exfalso. apply (Hall r); [lia | exact Hpow].
  - split.
    + intros r'. split; [discriminate|].
      intros (Hr' & Hpow' & _). exfalso. apply (Hnone r'); [lia | exact Hpow'].
    + split; [intros _; exact Hnone | reflexivity].
Qed.

Lemma find_order_smallest_witness :
  find_order 2 15 (Some 10) = Ret (Some 4).
Proof.
  apply (proj1 (find_order_smallest 2 15 10
                  ltac:(lia) ltac:(lia) eq_refl ltac:(lia)) 4).
  split; [lia|]. split; [reflexivity|].
  intros k Hk.
  assert (E : k = 1 \/ k = 2 \/ k = 3) by lia.
  destruct E as [-> | [-> | ->]]; vm_compute; discriminate.
Defined.

(** C6: [find_order] is monotonic in its bound: for all a, n and bounds
    b1 <= b2, a result [Some r] found with the bound b1 is the result with
    the bound b2 as well. *)
Theorem find_order_monotonic (a n b1 b2 r : Z) :
  b1 <= b2 ->
  find_order a n (Some b1) = Ret (Some r) ->
  find_order a n (Some b2) = Ret (Some r).
Proof.
  intros Hle. unfold find_order, find_order_run.
  destruct (Z.ltb_spec b1 0) as [Hneg | Hpos].
  - rewrite (py_range_nil 1 (b1 + 1)) by lia. discriminate.
  - rewrite (py_range_app 1 (b1 + 1) (b2 + 1)) by lia.
    apply find_order_loop_prefix.
Qed.

Lemma find_order_monotonic_witness :
  find_order 2 15 (Some 4) = Ret (Some 4) /\
  find_order 2 15 (Some 9) = Ret (Some 4).
Proof.
  split; [reflexivity|].
  apply (find_order_monotonic 2 15 4 9 4); [lia | reflexivity].
Defined.

(** C9: [find_order] is total and sound without the coprimality
    precondition: for every a, every n >= 1 and every bound it ends after
    at most max_order iterations (none when the bound is not positive), and
    a result [Some r] satisfies 1 <= r <= max_order, a^r mod n = 1 and no
    smaller positive exponent does; when gcd(a, n) <> 1 the result is
    None. *)
Theorem find_order_total_sound (a n : Z) (max_order : option Z) :
  1 <= n ->
  exists res,
    find_order a n max_order = Ret res /\
    Z.of_nat (find_order_iterations a n max_order)
    <= Z.max 0 (bound_of n max_order) /\
    (forall r, res = Some r ->
               1 <= r <= bound_of n max_order /\ a ^ r mod n = 1 /\
               (forall k, 1 <= k < r -> a ^ k mod n <> 1)) /\
    (Z.gcd a n <> 1 -> res = None).
Proof.
  intros Hn. unfold find_order, find_order_iterations.
  destruct (find_order_run_spec a n max_order ltac:(lia))
    as [(r & Hr & Hpow & Hmin & Heq) | (Hnone & Heq)];
    rewrite Heq; cbn [fst snd].
  - exists (Some r). split; [reflexivity|]. split; [lia|]. split.
    + intros r' E. injection E as <-. auto.
    + intros Hg. exfalso. apply Hg.
      apply (pow_one_mod_coprime a n r); [lia | lia | exact Hpow].
  - exists None. split; [reflexivity|]. split; [lia|].
    split; [discriminate | reflexivity].
Qed.

Lemma find_order_total_sound_witness :
  exists res,
    find_order 6 15 None = Ret res /\
    Z.of_nat (find_order_iterations 6 15 None) <= Z.max 0 15 /\
    (forall r, res = Some r ->
               1 <= r <= 15 /\ 6 ^ r mod 15 = 1 /\
               (forall k, 1 <= k < r -> 6 ^ k mod 15 <> 1)) /\
    (Z.gcd 6 15 <> 1 -> res = None).
Proof. exact (find_order_total_sound 6 15 None ltac:(lia)). Defined.

(** ** The monad *)

Lemma bind_ret {A B} (x : A) (k : A -> M B) (w : world) :
  bind (ret x) k w = k x w.
Proof. reflexivity. Qed.

Lemma bind_lift {A B} (o : outcome A) (k : A -> M B) (w : world) :
  bind (lift o) k w
  = match o with Ret x => k x w | Raise e => (Raise e, w) end.
Proof. reflexivity. Qed.

Lemma bind_returns {A B} (m : M A) (k : A -> M B) (w w' : world) (x : A) :
  m w = (Ret x, w') -> bind m k w = k x w'.
Proof. intros E. unfold bind. now rewrite E. Qed.

Lemma bind_raises {A B} (m : M A) (k : A -> M B) (w w' : world) (e : exn) :
  m w = (Raise e, w') -> bind m k w = (Raise e, w').
Proof. intros E. unfold bind. now rewrite E. Qed.

Lemma extends_refl (w : world) : extends w w [].
Proof.
  unfold extends. cbn. rewrite app_nil_r, Nat.add_0_r. auto.
Qed.

Lemma extends_trans (w1 w2 w3 : world) (l1 l2 : list Z) :
  extends w1 w2 l1 -> extends w2 w3 l2 -> extends w1 w3 (l1 ++ l2).
Proof.
  intros (E1 & C1 & D1) (E2 & C2 & D2). unfold extends.
  rewrite E2, E1, C2, C1, D2, D1, length_app, app_assoc.
  repeat split. lia.
Qed.

Lemma extends_quiet (w1 w2 w3 : world) (l : list Z) :
  extends w1 w2 l -> extends w2 w3 [] -> extends w1 w3 l.
Proof.
  intros H1 H2. rewrite <- (app_nil_r l). exact (extends_trans _ _ _ _ _ H1 H2).
Qed.

Lemma extends_quiet_l (w1 w2 w3 : world) (l : list Z) :
  extends w1 w2 [] -> extends w2 w3 l -> extends w1 w3 l.
Proof. intros H1 H2. exact (extends_trans _ _ _ _ _ H1 H2). Qed.

Lemma extends_printed (w : world) (out : list string) :
  extends w (printed w out) [].
Proof.
  unfold extends, printed; cbn. rewrite app_nil_r, Nat.add_0_r. auto.
Qed.

(** ** Printable integers *)

Lemma str_bound_value : str_bound = 10 ^ int_max_str_digits.
Proof. vm_compute. reflexivity. Qed.

Lemma float_limit_printable : float_limit <= str_bound.
Proof. apply Z.leb_le. vm_compute. reflexivity. Qed.

Lemma ten_printable : 10 < str_bound.
Proof. apply Z.ltb_lt. vm_compute. reflexivity. Qed.

Lemma printable_below (z m : Z) :
  Z.abs z <= Z.abs m -> printable m -> printable z.
Proof. unfold printable. lia. Qed.

Lemma printable_small (z : Z) : Z.abs z <= 10 -> printable z.
Proof. unfold printable. pose proof ten_printable. lia. Qed.

Lemma printable_float (n : Z) : 0 <= n < float_limit -> printable n.
Proof. unfold printable. pose proof float_limit_printable. lia. Qed.

Lemma str_printable (z : Z) : printable z -> exists s, str z = Ret s.
Proof.
  unfold printable, str. intros H.
  destruct (Z.leb_spec str_bound (Z.abs z)); [lia|]. eexists. reflexivity.
Qed.

Lemma str_cases (z : Z) :
  (exists s, str z = Ret s) \/ (~ printable z /\ str z = Raise ValueError).
Proof.
  unfold printable, str.
  destruct (Z.leb_spec str_bound (Z.abs z)).
  - right. split; [lia | reflexivity].
  - left. eexists. reflexivity.
Qed.

Lemma fmt_cases (line : list piece) :
  (exists s, fmt line = Ret s)
  \/ (~ Forall printable (numbers line) /\ fmt line = Raise ValueError).
Proof.
  induction line as [|[s|z] rest IH]; cbn [fmt numbers].
  - left. eexists. reflexivity.
  - destruct IH as [(t & ->) | (Hbad & ->)].
    + left. eexists. reflexivity.
    + right. split; [exact Hbad | reflexivity].
  - destruct (str_cases z) as [(s & ->) | (Hz & ->)].
    + destruct IH as [(t & ->) | (Hbad & ->)].
      * left. eexists. reflexivity.
      * right. split; [|reflexivity].
        intros Hall. apply Hbad. now inversion Hall.
    + right. split; [|reflexivity].
      intros Hall. apply Hz. now inversion Hall.
Qed.

Lemma fmt_ret_printable (line : list piece) (s : string) :
  fmt line = Ret s -> Forall printable (numbers line).
Proof.
  intros E. destruct (fmt_cases line) as [_ | (_ & E')].
  - revert s E. induction line as [|[t|z] rest IH]; intros s E;
      cbn [fmt numbers] in *.
    + constructor.
    + destruct (fmt rest) as [u|e]; [|discriminate E]. now apply (IH u).
    + destruct (str_cases z) as [(t & Et) | (_ & Et)]; rewrite Et in E;
        [|discriminate E].
      destruct (fmt rest) as [u|e] eqn:Er; [|discriminate E].
      constructor; [|now apply (IH u)].
      unfold str in Et. unfold printable.
      destruct (Z.leb_spec str_bound (Z.abs z)); [discriminate Et | assumption].
  - rewrite E in E'. discriminate E'.
Qed.

(** A narration ends well, or stops at the first line with a number that
    [str] refuses; either way it leaves the generator alone. *)
Lemma say_run (verbose : bool) (lines : list (list piece)) (w : world) :
  exists w', extends w w' [] /\
    (say verbose lines w = (Ret tt, w')
     \/ (verbose = true /\
         ~ Forall printable (flat_map numbers lines) /\
         say verbose lines w = (Raise ValueError, w'))).
Proof.
  revert w. induction lines as [|line rest IH]; intros w.
  - exists w. split; [apply extends_refl | left; reflexivity].
  - cbn [say flat_map]. destruct verbose.
    + destruct (fmt_cases line) as [(s & Es) | (Hbad & Es)].
      * destruct (IH (printed w [s])) as (w' & Hext & Hcases).
        exists w'. split.
        { exact (extends_quiet_l _ _ _ _ (extends_printed w [s]) Hext). }
        assert (Estep : forall B (k : unit -> M B),
                   bind (bind (lift (fmt line)) (fun s => print s)) k w
                   = k tt (printed w [s])).
        { intros B k. unfold bind at 1. rewrite bind_lift, Es. reflexivity. }
        rewrite Estep.
        destruct Hcases as [E | (_ & Hbad & E)]; [left; exact E|].
        right. split; [reflexivity|]. split; [|exact E].
        intros Hall. apply Hbad. apply Forall_app in Hall. tauto.
      * exists w. split; [apply extends_refl|]. right.
        split; [reflexivity|]. split.
        { intros Hall. apply Hbad. apply Forall_app in Hall. tauto. }
        unfold bind at 1. rewrite bind_lift, Es. reflexivity.
    + rewrite bind_ret.
      destruct (IH w) as (w' & Hext & [E | (Hv & _)]); [|discriminate Hv].
      exists w'. split; [exact Hext | left; exact E].
Qed.

Lemma say_refuses (lines : list (list piece)) (w : world) :
  ~ Forall printable (flat_map numbers lines) ->
  exists w', extends w w' [] /\ say true lines w = (Raise ValueError, w').
Proof.
  revert w. induction lines as [|line rest IH]; intros w Hbad.
  - exfalso. apply Hbad. constructor.
  - cbn [say flat_map] in *.
    destruct (fmt_cases line) as [(s & Es) | (_ & Es)].
    + destruct (IH (printed w [s])) as (w' & Hext & E).
      { intros Hrest. apply Hbad. apply Forall_app. split; [|exact Hrest].
        exact (fmt_ret_printable line s Es). }
      exists w'. split.
      { exact (extends_quiet_l _ _ _ _ (extends_printed w [s]) Hext). }
      unfold bind at 1. rewrite bind_lift, Es. exact E.
    + exists w. split; [apply extends_refl|].
      unfold bind at 1. rewrite bind_lift, Es. reflexivity.
Qed.

Lemma say_false_run (lines : list (list piece)) (w : world) :
  say false lines w = (Ret tt, w).
Proof.
  induction lines as [|s rest IH]; [reflexivity|].
  cbn [say]. rewrite bind_ret. exact IH.
Qed.

(** The two ways a narration step goes on. *)
Lemma bind_say {B} (verbose : bool) (lines : list (list piece))
    (k : unit -> M B) (w : world) :
  exists w', extends w w' [] /\
    (bind (say verbose lines) k w = k tt w'
     \/ (verbose = true /\
         ~ Forall printable (flat_map numbers lines) /\
         bind (say verbose lines) k w = (Raise ValueError, w'))).
Proof.
  destruct (say_run verbose lines w) as (w' & Hext & [E | (Hv & Hbad & E)]).
  - exists w'. split; [exact Hext|]. left. unfold bind. now rewrite E.
  - exists w'. split; [exact Hext|]. right.
    split; [exact Hv|]. split; [exact Hbad|]. unfold bind. now rewrite E.
Qed.

Lemma bind_say_printable {B} (verbose : bool) (lines : list (list piece))
    (k : unit -> M B) (w : world) :
  verbose = false \/ Forall printable (flat_map numbers lines) ->
  exists w', extends w w' [] /\ bind (say verbose lines) k w = k tt w'.
Proof.
  intros Hok.
  destruct (bind_say verbose lines k w) as (w' & Hext & [E | (Hv & Hbad & _)]).
  - exists w'. auto.
  - exfalso. destruct Hok as [-> | Hall]; [discriminate Hv | now apply Hbad].
Qed.

Lemma bind_say_false {B} (lines : list (list piece)) (k : unit -> M B)
    (w : world) :
  bind (say false lines) k w = k tt w.
Proof. unfold bind. now rewrite say_false_run. Qed.

Lemma randint_run (lo hi : Z) (w : world) :
  (hi < lo /\ randint lo hi w = (Raise ValueError, w))
  \/ (exists a w', lo <= a <= hi /\ extends w w' [a] /\
                   randint lo hi w = (Ret a, w')).
Proof.
  unfold randint. destruct (Z.ltb_spec hi lo) as [H|H].
  - left. auto.
  - right. eexists. eexists. split; [|split; [|reflexivity]].
    + pose proof (Z.mod_pos_bound (entropy w (cursor w)) (hi - lo + 1)
                    ltac:(lia)). lia.
    + unfold extends; cbn. repeat split. lia.
Qed.

(** Proves [verbose = false \/ Forall printable ...] for a narration step,
    with [tac] for each number. *)
Ltac narrated tac :=
  right; unfold success_lines; cbn [flat_map numbers app];
  repeat (apply Forall_cons; [solve [tac]|]); apply Forall_nil.

(** [step_say tac] takes one narration step; [tac] closes the case in which
    the narration raises. *)
Ltac step_say_with tac :=
  match goal with
  | |- context [bind (say ?v ?l) ?k ?w] =>
      let w' := fresh "w" in
      let H := fresh "Hext" in
      let Hv := fresh "Hverbose" in
      let Hbad := fresh "Hbad" in
      destruct (bind_say v l k w) as (w' & H & [-> | (Hv & Hbad & ->)]);
      cbv beta; [|solve [tac w' H Hv Hbad]]
  end.

(** [step_say_ok tac] takes one narration step that cannot raise; [tac]
    proves that its numbers are printable, or that [verbose] is off. *)
Ltac step_say_ok tac :=
  match goal with
  | |- context [bind (say ?v ?l) ?k ?w] =>
      let w' := fresh "w" in
      let H := fresh "Hext" in
      destruct (bind_say_printable v l k w) as (w' & H & ->);
      [solve [tac] | cbv beta]
  end.

(** ** The loops of the engine *)

Lemma last_cons_default {A} (x d : A) (l : list A) :
  last (x :: l) d = last l x.
Proof.
  revert x d. induction l as [|y l IH]; intros x d; [reflexivity|].
  change (last (x :: y :: l) d) with (last (y :: l) d).
  now rewrite !IH.
Qed.

Section EngineFacts.

Context {float_ops : FloatOps}.

Lemma perfect_power_loop_run (n : Z) (verbose : bool) (ks : list Z)
    (w : world) :
  exists w', extends w w' [] /\
    (perfect_power_loop n verbose ks w = (Ret (Finished tt), w')
     \/ (exists k a, In k ks /\ 0 <= a /\ a ^ k = n /\
           perfect_power_loop n verbose ks w
           = (Ret (Returned (a, a ^ (k - 1))), w'))
     \/ (exists k e, In k ks /\ root_round n k = Raise e /\
           perfect_power_loop n verbose ks w = (Raise e, w'))
     \/ (verbose = true /\
         perfect_power_loop n verbose ks w = (Raise ValueError, w'))).
Proof.
  induction ks as [|k ks IH].
  - exists w. split; [apply extends_refl | left; reflexivity].
  - cbn [perfect_power_loop]. rewrite bind_lift.
    destruct (root_round n k) as [root|e] eqn:Eroot.
    + cbv zeta. destruct (Z.eqb_spec (Z.of_N root ^ k) n) as [Hpow|Hpow].
      * step_say_with ltac:(fun w' H Hv Hbad =>
          exists w'; split; [exact H|]; do 3 right; split;
          [exact Hv | reflexivity]).
        exists w0. split; [exact Hext|].
        right; left. exists k, (Z.of_N root).
        repeat split; [now left | lia | exact Hpow].
      * destruct IH as (w' & Hext & [E | [(k' & a & Hin & Ha & Hpow' & E)
                                  | [(k' & e & Hin & He & E) | (Hv & E)]]]).
        -- exists w'. split; [exact Hext | left; exact E].
        -- exists w'. split; [exact Hext|]. right; left.
           exists k', a. repeat split; [now right | lia | exact Hpow' | exact E].
        -- exists w'. split; [exact Hext|]. right; right; left.
           exists k', e. repeat split; [now right | exact He | exact E].
        -- exists w'. split; [exact Hext|]. do 3 right. auto.
    + exists w. split; [apply extends_refl|]. right; right; left.
      exists k, e. repeat split; [now left | exact Eroot].
Qed.

Lemma sampling_loop_run (n : Z) (verbose : bool) :
  forall (attempts : list Z) (a0 : Z) (w : world),
  exists new w',
    extends w w' new /\
    Forall (fun d => 2 <= d <= n - 1) new /\
    (List.length new <= List.length attempts)%nat /\
    ((n - 1 < 2 /\ new = [] /\
      sampling_loop n verbose attempts a0 w = (Raise ValueError, w'))
     \/ (exists pre a,
           new = pre ++ [a] /\
           (List.length pre < List.length attempts)%nat /\
           Forall (fun d => Z.gcd d n = 1) pre /\
           Z.gcd a n <> 1 /\
           sampling_loop n verbose attempts a0 w
           = (Ret (Returned (Z.gcd a n, n / Z.gcd a n)), w'))
     \/ (List.length new = List.length attempts /\
         Forall (fun d => Z.gcd d n = 1) new /\
         sampling_loop n verbose attempts a0 w
         = (Ret (Finished (last new a0)), w'))
     \/ (verbose = true /\
         sampling_loop n verbose attempts a0 w = (Raise ValueError, w'))).
Proof.
  induction attempts as [|attempt rest IH]; intros a0 w.
  - exists [], w. split; [apply extends_refl|]. split; [constructor|].
    split; [reflexivity|]. right; right; left. repeat split. constructor.
  - cbn [sampling_loop].
    destruct (randint_run 2 (n - 1) w)
      as [(Hlt & Er) | (a & w1 & Ha & Hext1 & Er)].
    + rewrite (bind_raises _ _ _ _ _ Er).
      exists [], w. split; [apply extends_refl|]. split; [constructor|].
      split; [cbn; lia|]. left. auto.
    + rewrite (bind_returns _ _ _ _ _ Er). cbv zeta.
      assert (Hone : Forall (fun d => 2 <= d <= n - 1) [a])
        by (constructor; [lia | constructor]).
      step_say_with ltac:(fun w' H Hv Hbad =>
        exists [a], w'; split; [exact (extends_quiet _ _ _ _ Hext1 H)|];
        split; [exact Hone|]; split; [cbn; lia|]; do 3 right; split;
        [exact Hv | reflexivity]).
      assert (Hext2 : extends w w0 [a])
        by exact (extends_quiet _ _ _ _ Hext1 Hext).
      destruct (Z.eqb_spec (Z.gcd a n) 1) as [Hg|Hg]; cbn [negb].
      * destruct (IH a w0)
          as (new & w' & Hext' & Hrange & Hlen &
              [(Hlt & _) | [(pre & a' & -> & Hlen' & Hpre & Hg' & E)
                           | [(Hlen' & Hcop & E) | (Hv & E)]]]).
        -- lia.
        -- exists (a :: pre ++ [a']), w'.
           split; [exact (extends_trans _ _ _ [a] _ Hext2 Hext')|].
           split; [constructor; assumption|]. split; [cbn in *; lia|].
           right; left. exists (a :: pre), a'.
           split; [reflexivity|]. split; [cbn; lia|].
           split; [constructor; assumption|]. split; [exact Hg' | exact E].
        -- exists (a :: new), w'.
           split; [exact (extends_trans _ _ _ [a] new Hext2 Hext')|].
           split; [constructor; assumption|]. split; [cbn; lia|].
           right; right; left. split; [cbn; lia|].
           split; [constructor; assumption|].
           rewrite last_cons_default. exact E.
        -- exists (a :: new), w'.
           split; [exact (extends_trans _ _ _ [a] new Hext2 Hext')|].
           split; [constructor; assumption|]. split; [cbn; lia|].
           do 3 right. auto.
      * step_say_with ltac:(fun w' H Hv Hbad =>
          exists [a], w'; split; [exact (extends_quiet _ _ _ _ Hext2 H)|];
          split; [exact Hone|]; split; [cbn; lia|]; do 3 right; split;
          [exact Hv | reflexivity]).
        exists [a], w2. split; [exact (extends_quiet _ _ _ _ Hext2 Hext0)|].
        split; [exact Hone|]. split; [cbn; lia|].
        right; left. exists [], a.
        split; [reflexivity|]. split; [cbn; lia|].
        split; [constructor|]. split; [exact Hg | reflexivity].
Qed.

End EngineFacts.

(** ** One call of the engine *)

(** Closes [extends w0 w' l] from the steps in the context. *)
Ltac chain :=
  repeat (eapply extends_quiet; [|eassumption]);
  first [eassumption | apply extends_refl].

(** Closes the case of a narration that raises, in a proof of [exit]. *)
Ltac narration_exit w' H Hv Hbad :=
  cbn [fst snd];
  match goal with
  | Hl : Z.of_nat (List.length ?new) <= max_attempts,
    Hr : Forall _ ?new |- exit ?retry ?n ?v ?w0 _ _ =>
      apply (exit_narration retry n v w0 new w' Hv Hl Hr); chain
  end.

Section CallFacts.

Context {float_ops : FloatOps}.
Variable retry : Z -> bool -> M (option (Z * Z)).

Lemma find_order_default_cases (a n : Z) :
  n <> 0 ->
  (exists r, find_order a n None = Ret (Some r))
  \/ find_order a n None = Ret None.
Proof.
  intros Hn. unfold find_order.
  destruct (find_order_run_spec a n None Hn)
    as [(r & _ & _ & _ & ->) | (_ & ->)]; [left; exists r|right]; reflexivity.
Qed.

Lemma exhausted_range (n a : Z) (new : list Z) :
  exhausted n new a ->
  Z.of_nat (List.length new) <= max_attempts /\
  Forall (fun d => 2 <= d <= n - 1) new.
Proof.
  intros (Hlen & Hall & _). split; [lia|].
  rewrite Forall_forall in *. intros d Hd. now apply Hall.
Qed.

Lemma use_period_exit (n : Z) (verbose : bool) (a : Z) (w0 w : world)
    (new : list Z) :
  n mod 2 <> 0 -> exhausted n new a -> extends w0 w new ->
  exit retry n verbose w0 (fst (use_period retry n verbose a w))
                          (snd (use_period retry n verbose a w)).
Proof.
  intros Hodd Hex Hext0.
  assert (Hn : n <> 0) by (intros ->; apply Hodd; reflexivity).
  destruct (exhausted_range n a new Hex) as (Hlen & Hrange).
  unfold use_period.
  step_say_with narration_exit. rewrite bind_lift.
  destruct (find_order_default_cases a n Hn) as [(r & Er) | Er]; rewrite Er.
  - step_say_with narration_exit.
    destruct (Z.eqb_spec (r mod 2) 1) as [Hr|Hr].
    + step_say_with narration_exit.
      apply (exit_retry retry n verbose w0 new a r); try assumption.
      * chain.
      * left. exact Hr.
    + step_say_with narration_exit. cbv zeta. step_say_with narration_exit.
      destruct (Z.eqb_spec (a ^ (r / 2) mod n) (n - 1)) as [Hx|Hx].
      * step_say_with narration_exit.
        apply (exit_retry retry n verbose w0 new a r); try assumption.
        -- chain.
        -- right; left. exact Hx.
      * step_say_with narration_exit. step_say_with narration_exit.
        set (x := a ^ (r / 2) mod n) in *.
        destruct (Z.ltb_spec 1 (Z.gcd (x - 1) n)) as [H1|H1];
          [destruct (Z.ltb_spec (Z.gcd (x - 1) n) n) as [H1'|H1']|];
          cbn [andb].
        -- step_say_with narration_exit.
           apply (exit_factor retry n verbose w0 (Z.gcd (x - 1) n) new a r);
             try assumption.
           ++ chain.
           ++ left. reflexivity.
           ++ lia.
        -- destruct (Z.ltb_spec 1 (Z.gcd (x + 1) n)) as [H2|H2];
             [destruct (Z.ltb_spec (Z.gcd (x + 1) n) n) as [H2'|H2']|];
             cbn [andb].
           ++ step_say_with narration_exit.
              apply (exit_factor retry n verbose w0 (Z.gcd (x + 1) n) new a r);
                try assumption.
              ** chain.
              ** right. reflexivity.
              ** lia.
           ++ step_say_with narration_exit.
              apply (exit_retry retry n verbose w0 new a r); try assumption.
              ** chain.
              ** right; right. fold x. lia.
           ++ step_say_with narration_exit.
              apply (exit_retry retry n verbose w0 new a r); try assumption.
              ** chain.
              ** right; right. fold x. lia.
        -- destruct (Z.ltb_spec 1 (Z.gcd (x + 1) n)) as [H2|H2];
             [destruct (Z.ltb_spec (Z.gcd (x + 1) n) n) as [H2'|H2']|];
             cbn [andb].
           ++ step_say_with narration_exit.
              apply (exit_factor retry n verbose w0 (Z.gcd (x + 1) n) new a r);
                try assumption.
              ** chain.
              ** right. reflexivity.
              ** lia.
           ++ step_say_with narration_exit.
              apply (exit_retry retry n verbose w0 new a r); try assumption.
              ** chain.
              ** right; right. fold x. lia.
           ++ step_say_with narration_exit.
              apply (exit_retry retry n verbose w0 new a r); try assumption.
              ** chain.
              ** right; right. fold x. lia.
  - step_say_with narration_exit.
    apply (exit_no_order retry n verbose w0 new a); try assumption.
    chain.
Qed.

Lemma shors_body_exit (n : Z) (verbose : bool) (w : world) :
  exit retry n verbose w (fst (shors_body retry n verbose w))
                         (snd (shors_body retry n verbose w)).
Proof.
  assert (Hlen0 : Z.of_nat (List.length (@nil Z)) <= max_attempts)
    by (unfold max_attempts; cbn; lia).
  assert (Hrange0 : Forall (fun d => 2 <= d <= n - 1) []) by constructor.
  unfold shors_body. step_say_with narration_exit.
  destruct (Z.eqb_spec (n mod 2) 0) as [Heven|Hodd].
  - step_say_with narration_exit. apply exit_even; [exact Heven | chain].
  - step_say_with narration_exit. rewrite bind_lift.
    destruct (log2_int n) as [top|e] eqn:Elog.
    + destruct (perfect_power_loop_run n verbose (py_range 2 (top + 1)) w1)
        as (w2 & Hext2 & [E | [(k & a & Hin & Ha & Hpow & E)
                             | [(k & e & Hin & He & E) | (Hv & E)]]]).
      * rewrite (bind_returns _ _ _ _ _ E). step_say_with narration_exit.
        assert (Hw3 : extends w w3 []) by chain.
        clear Hlen0 Hrange0.
        destruct (sampling_loop_run n verbose (py_range 0 max_attempts) 0 w3)
          as (new & w4 & Hext4 & Hrange & Hlen &
              [(Hlt & -> & Es)
              | [(pre & a & -> & Hlen' & Hpre & Hg & Es)
                | [(Hlen' & Hcop & Es) | (Hv & Es)]]]);
          pose proof (extends_quiet_l _ _ _ _ Hw3 Hext4) as Hw4;
          rewrite py_range_length in *.
        -- rewrite (bind_raises _ _ _ _ _ Es).
           apply exit_empty_range; assumption.
        -- rewrite (bind_returns _ _ _ _ _ Es).
           apply (exit_shared_factor retry n verbose w (pre ++ [a]) a);
             try assumption.
           ++ unfold max_attempts in *. lia.
           ++ apply in_or_app. right. now left.
        -- rewrite (bind_returns _ _ _ _ _ Es).
           apply (use_period_exit n verbose _ w w4 new); try assumption.
           split; [unfold max_attempts in *; lia|].
           split; [|reflexivity].
           apply Forall_forall. intros d Hd.
           rewrite Forall_forall in Hrange, Hcop. auto.
        -- rewrite (bind_raises _ _ _ _ _ Es).
           apply (exit_narration retry n verbose w new w4 Hv); try assumption.
           unfold max_attempts in *. lia.
      * rewrite (bind_returns _ _ _ _ _ E).
        apply py_range_In in Hin.
        apply (exit_perfect_power retry n verbose w k a); try assumption;
          [lia | chain].
      * rewrite (bind_raises _ _ _ _ _ E).
        apply py_range_In in Hin.
        apply (exit_root_error retry n verbose w k e); try assumption;
          [lia | chain].
      * rewrite (bind_raises _ _ _ _ _ E).
        apply (exit_narration retry n verbose w [] w2 Hv); try assumption.
        chain.
    + apply exit_log2_error; try assumption. chain.
Qed.

End CallFacts.

(** ** The order of a coprime base exists within the default bound *)

Lemma repeated_entry (l : list Z) :
  ~ NoDup l ->
  exists i j, (i < j < List.length l)%nat /\ nth i l 0 = nth j l 0.
Proof.
  induction l as [|x l IH]; intros Hdup.
  - exfalso. apply Hdup. constructor.
  - destruct (in_dec Z.eq_dec x l) as [Hin|Hnin].
    + destruct (In_nth l x 0 Hin) as (j & Hj & Ej).
      exists 0%nat, (S j). cbn. split; [lia | now rewrite Ej].
    + destruct IH as (i & j & Hij & E).
      { intros Hnd. apply Hdup. now constructor. }
      exists (S i), (S j). cbn. split; [lia | exact E].
Qed.

Lemma cancel_coprime_power (a n c : Z) (i : nat) :
  Z.gcd n a = 1 -> (n | a ^ Z.of_nat i * c) -> (n | c).
Proof.
  intros Hg. induction i as [|i IH]; intros Hdiv.
  - now rewrite Z.pow_0_r, Z.mul_1_l in Hdiv.
  - apply IH. apply (Z.gauss n a); [|exact Hg].
    replace (a * (a ^ Z.of_nat i * c)) with (a ^ Z.of_nat (S i) * c);
      [exact Hdiv|].
    rewrite Nat2Z.inj_succ, Z.pow_succ_r by lia. ring.
Qed.

Lemma order_exists (a n : Z) :
  2 <= n -> Z.gcd a n = 1 -> exists r, 1 <= r <= n /\ a ^ r mod n = 1.
Proof.
  intros Hn Hg.
  set (f := fun i : nat => a ^ Z.of_nat i mod n).
  set (l := map f (seq 0 (S (Z.to_nat n)))).
  assert (Hdup : ~ NoDup l).
  { intros Hnd.
    assert (Hincl : incl l (py_range 0 n)).
    { intros v Hv. apply in_map_iff in Hv as (i & <- & _).
      apply py_range_In. unfold f.
      pose proof (Z.mod_pos_bound (a ^ Z.of_nat i) n ltac:(lia)). lia. }
    pose proof (NoDup_incl_length Hnd Hincl) as Hlen.
    unfold l in Hlen.
    rewrite length_map, length_seq, py_range_length in Hlen. lia. }
  destruct (repeated_entry l Hdup) as (i & j & Hij & E).
  unfold l in Hij, E. rewrite length_map, length_seq in Hij.
  assert (Hnth : forall k, (k < S (Z.to_nat n))%nat ->
                           nth k (map f (seq 0 (S (Z.to_nat n)))) 0 = f k).
  { intros k Hk.
    rewrite (nth_indep _ 0 (f 0%nat)) by (rewrite length_map, length_seq; lia).
    rewrite map_nth, seq_nth by lia. reflexivity. }
  rewrite !Hnth in E by lia. unfold f in E.
  exists (Z.of_nat (j - i)). split; [lia|].
  assert (Hdiv : (n | a ^ Z.of_nat (j - i) - 1)).
  { apply (cancel_coprime_power a n _ i); [now rewrite Z.gcd_comm|].
    replace (a ^ Z.of_nat i * (a ^ Z.of_nat (j - i) - 1))
      with (a ^ Z.of_nat j - a ^ Z.of_nat i).
    - apply Z.mod_divide; [lia|].
      rewrite Zminus_mod, E, Z.sub_diag. apply Z.mod_0_l. lia.
    - rewrite Z.mul_sub_distr_l, <- Z.pow_add_r by lia.
      replace (Z.of_nat i + Z.of_nat (j - i)) with (Z.of_nat j) by lia. ring. }
  destruct Hdiv as (q & Hq).
  replace (a ^ Z.of_nat (j - i)) with (1 + q * n) by lia.
  rewrite Z.mod_add by lia. apply Z.mod_small. lia.
Qed.

Lemma find_order_default_finds (a n : Z) :
  2 <= n -> Z.gcd a n = 1 -> exists r, find_order a n None = Ret (Some r).
Proof.
  intros Hn Hg. unfold find_order.
  destruct (find_order_run_spec a n None ltac:(lia))
    as [(r & _ & _ & _ & ->) | (Hnone & _)].
  - exists r. reflexivity.
  - exfalso. destruct (order_exists a n Hn Hg) as (r & Hr & Hpow).
    apply (Hnone r); [exact Hr | exact Hpow].
Qed.

Lemma last_In {A} (l : list A) (d : A) : l <> [] -> In (last l d) l.
Proof.
  intros Hne. rewrite (app_removelast_last d Hne) at 2.
  apply in_or_app. right. now left.
Qed.

Lemma exhausted_base (n a : Z) (new : list Z) :
  exhausted n new a -> 2 <= a <= n - 1 /\ Z.gcd a n = 1.
Proof.
  intros (Hlen & Hall & <-).
  rewrite Forall_forall in Hall. apply Hall. apply last_In.
  intros ->. discriminate Hlen.
Qed.

(** ** Factor pairs *)

Lemma divisor_pair (n f : Z) :
  (f | n) -> 1 < f < n -> nontrivial_pair n f (n / f).
Proof.
  intros Hdiv Hf. unfold nontrivial_pair.
  assert (E : f * (n / f) = n).
  { rewrite <- Z.divide_div_mul_exact by (assumption || lia).
    rewrite Z.mul_comm. apply Z.div_mul. lia. }
  split; [exact E|]. split; [exact Hf|]. nia.
Qed.

Lemma even_pair (n : Z) : 2 < n -> n mod 2 = 0 -> nontrivial_pair n 2 (n / 2).
Proof.
  intros Hn Heven. apply divisor_pair.
  - apply Z.mod_divide; [lia | exact Heven].
  - lia.
Qed.

Lemma power_pair (n a k : Z) :
  2 < n -> 2 <= k -> 0 <= a -> a ^ k = n -> nontrivial_pair n a (a ^ (k - 1)).
Proof.
  intros Hn Hk Ha Hpow.
  assert (Hsplit : a * a ^ (k - 1) = n).
  { rewrite <- Hpow. replace k with (Z.succ (k - 1)) at 2 by lia.
    now rewrite Z.pow_succ_r by lia. }
  assert (Ha2 : 2 <= a).
  { destruct (Z.eq_dec a 0) as [->|].
    - rewrite Z.pow_0_l in Hpow by lia. lia.
    - destruct (Z.eq_dec a 1) as [->|]; [|lia].
      rewrite Z.pow_1_l in Hpow by lia. lia. }
  assert (Hq : a <= a ^ (k - 1)).
  { rewrite <- (Z.pow_1_r a) at 1. apply Z.pow_le_mono_r; lia. }
  unfold nontrivial_pair. split; [exact Hsplit|]. nia.
Qed.

Lemma shared_factor_pair (n a : Z) :
  2 <= a <= n - 1 -> Z.gcd a n <> 1 ->
  nontrivial_pair n (Z.gcd a n) (n / Z.gcd a n).
Proof.
  intros Ha Hg. apply divisor_pair; [apply Z.gcd_divide_r|].
  pose proof (Z.gcd_nonneg a n) as Hnn.
  assert (Hle : Z.gcd a n <= a)
    by (apply Z.divide_pos_le; [lia | apply Z.gcd_divide_l]).
  assert (Hnz : Z.gcd a n <> 0).
  { intros E. apply Z.gcd_eq_0_l in E. lia. }
  lia.
Qed.

Section Results.

Context {float_ops : FloatOps}.

Lemma shors_body_pairs (retry : Z -> bool -> M (option (Z * Z))) (n : Z) :
  2 < n ->
  (forall w p q, fst (retry n false w) = Ret (Some (p, q)) ->
                 nontrivial_pair n p q) ->
  forall verbose w p q,
    fst (shors_body retry n verbose w) = Ret (Some (p, q)) ->
    nontrivial_pair n p q.
Proof.
  intros Hn Hretry verbose w p q E.
  pose proof (shors_body_exit retry n verbose w) as Hexit.
  rewrite E in Hexit.
  inversion Hexit as
    [w' Heven _
    | | |k a w' _ Hk Ha Hpow _
    | |new a w' _ _ Hrange Hin Hg _
    | |factor new a r w' Hodd _ _ _ Hfactor Hf
    |new a r w1 _ _ _ _ _ Hfst
    |]; subst.
  - now apply even_pair.
  - now apply power_pair.
  - apply shared_factor_pair; [|exact Hg].
    rewrite Forall_forall in Hrange. now apply Hrange.
  - apply divisor_pair; [|exact Hf].
    destruct Hfactor as [-> | ->]; apply Z.gcd_divide_r.
  - now apply (Hretry w1).
Qed.

Lemma shors_algorithm_pairs (n : Z) :
  2 < n ->
  forall depth verbose w p q,
    fst (shors_algorithm depth n verbose w) = Ret (Some (p, q)) ->
    nontrivial_pair n p q.
Proof.
  intros Hn. induction depth as [|depth IH]; intros verbose w p q;
    cbn [shors_algorithm]; apply shors_body_pairs; try assumption.
  - intros w0 p0 q0 E. discriminate E.
  - intros w0 p0 q0. apply IH.
Qed.

(** The header is narrated before anything else: with verbose on, an n
    that [str] refuses ends the call there. *)
Lemma shors_algorithm_header_refuses (depth : nat) (n : Z) (w : world) :
  ~ printable n ->
  exists w',
    shors_algorithm depth n true w = (Raise ValueError, w') /\
    extends w w' [].
Proof.
  intros Hbad.
  assert (Hbody : forall retry, exists w',
             shors_body retry n true w = (Raise ValueError, w') /\
             extends w w' []).
  { intros retry. unfold shors_body.
    match goal with
    | |- context [bind (say true ?l) ?k w] =>
        destruct (say_refuses l w) as (w' & Hext & E)
    end.
    - cbn [flat_map numbers app]. intros Hall. apply Hbad. now inversion Hall.
    - exists w'. split; [|exact Hext]. now apply bind_raises. }
  destruct depth; cbn [shors_algorithm]; apply Hbody.
Qed.

(** The even check, when the header and the result can be narrated. *)
Lemma shors_algorithm_even (depth : nat) (n : Z) (verbose : bool) (w : world) :
  n mod 2 = 0 -> verbose = false \/ printable n ->
  exists w',
    shors_algorithm depth n verbose w = (Ret (Some (2, n / 2)), w') /\
    extends w w' [].
Proof.
  intros Heven Hok.
  assert (Hhalf : Z.abs (n / 2) <= Z.abs n).
  { pose proof (Z.div_mod n 2 ltac:(lia)). lia. }
  assert (Hbody : forall retry, exists w',
             shors_body retry n verbose w = (Ret (Some (2, n / 2)), w') /\
             extends w w' []).
  { intros retry. unfold shors_body.
    step_say_ok ltac:(destruct Hok as [Hq | Hp];
                      [left; exact Hq | narrated ltac:(exact Hp)]).
    rewrite Heven. change (0 =? 0) with true. cbv iota.
    step_say_ok ltac:(destruct Hok as [Hq | Hp];
                      [left; exact Hq
                      | narrated ltac:(exact (printable_below _ n Hhalf Hp))]).
    exists w1. split; [reflexivity | chain]. }
  destruct depth; cbn [shors_algorithm]; apply Hbody.
Qed.

End Results.

(** ** The claims about the Factor Engine *)

(** C1, as stated, fails: the call on n = 2 returns the pair (2, 1), whose
    first component is n itself and whose second is 1. *)
Lemma pair_law_fails_at_two :
  ~ (forall (F : FloatOps) (depth : nat) (n : Z) (verbose : bool)
            (w : world) (p q : Z),
        result_of (shors_algorithm depth n verbose w) = Ret (Some (p, q)) ->
        p * q = n /\ 1 < p < n /\ 1 < q < n).
Proof.
  intros H.
  destruct (H ideal_float 0%nat 2 false (fresh_world (fun _ => 0)) 2 1
              eq_refl) as (_ & _ & Hq).
  lia.
Qed.

(** C1, amended: for every call of [shors_algorithm] on an n > 2 that
    returns a pair (p, q), p times q equals n, 1 < p < n and 1 < q < n. *)
Theorem returned_pair_factors (F : FloatOps) (depth : nat) (n : Z)
    (verbose : bool) (w : world) (p q : Z) :
  2 < n ->
  result_of (shors_algorithm depth n verbose w) = Ret (Some (p, q)) ->
  p * q = n /\ 1 < p < n /\ 1 < q < n.
Proof.
  intros Hn E. exact (shors_algorithm_pairs n Hn depth verbose w p q E).
Qed.

Lemma returned_pair_factors_witness :
  2 < 15 /\
  result_of (shors_algorithm (float_ops := ideal_float) 0 15 true
               (fresh_world (fun _ => 0))) = Ret (Some (3, 5)) /\
  (3 * 5 = 15 /\ 1 < 3 < 15 /\ 1 < 5 < 15).
Proof.
  assert (Hn : 2 < 15) by lia.
  assert (Hrun : result_of (shors_algorithm (float_ops := ideal_float) 0 15
                              true (fresh_world (fun _ => 0)))
                 = Ret (Some (3, 5))) by (vm_compute; reflexivity).
  split; [exact Hn|]. split; [exact Hrun|].
  exact (returned_pair_factors ideal_float 0 15 true
           (fresh_world (fun _ => 0)) 3 5 Hn Hrun).
Defined.

(** C10: the call on n = 2 returns (2, 1): the even check has no lower
    bound, so the second component is 1, which is not a nontrivial
    factor. *)
Theorem two_gives_two_one (F : FloatOps) (depth : nat) (verbose : bool)
    (w : world) :
  result_of (shors_algorithm depth 2 verbose w) = Ret (Some (2, 1))
  /\ ~ nontrivial_pair 2 2 1.
Proof.
  split.
  - unfold result_of.
    destruct (shors_algorithm_even depth 2 verbose w eq_refl) as (w' & E & _).
    + right. apply printable_small. apply Z.leb_le. reflexivity.
    + rewrite E. reflexivity.
  - unfold nontrivial_pair. lia.
Qed.

(** C5, as stated, fails: the header line is narrated before the even
    check, and [str] refuses an n of more than 4300 digits.  With verbose
    on, the call on n = 10^4300 raises [ValueError]. *)
Lemma even_check_follows_header :
  ~ (forall (F : FloatOps) (depth : nat) (n : Z) (verbose : bool)
            (w : world),
        4 <= n -> n mod 2 = 0 ->
        result_of (shors_algorithm depth n verbose w)
        = Ret (Some (2, n / 2))).
Proof.
  intros H.
  specialize (H ideal_float 0%nat (10 ^ int_max_str_digits) true
                (fresh_world (fun _ => 0))).
  rewrite <- str_bound_value in H.
  assert (H4 : 4 <= str_bound) by (pose proof ten_printable; lia).
  assert (Heven : str_bound mod 2 = 0) by (vm_compute; reflexivity).
  specialize (H H4 Heven).
  destruct (shors_algorithm_header_refuses (float_ops := ideal_float) 0
              str_bound (fresh_world (fun _ => 0))) as (w' & E & _).
  { unfold printable. lia. }
  unfold result_of in H. rewrite E in H. discriminate H.
Qed.

(** C5, amended: for every even n >= 4 that can be narrated (verbose is
    off, or n has at most 4300 digits) the call returns (2, n/2), whatever
    the generator, the floating-point library and the recursion budget
    are: the even check comes before every other transition, and no draw
    is made.  With verbose on and a longer n, the header line raises
    [ValueError] before the even check, and no draw is made either. *)
Theorem even_gives_two (F : FloatOps) (depth : nat) (n : Z) (verbose : bool)
    (w : world) :
  4 <= n -> n mod 2 = 0 ->
  (verbose = false \/ printable n ->
   exists w',
     shors_algorithm depth n verbose w = (Ret (Some (2, n / 2)), w') /\
     cursor w' = cursor w /\ drawn w' = drawn w /\ entropy w' = entropy w) /\
  (verbose = true -> ~ printable n ->
   exists w',
     shors_algorithm depth n verbose w = (Raise ValueError, w') /\
     cursor w' = cursor w /\ drawn w' = drawn w /\ entropy w' = entropy w).
Proof.
  intros _ Heven. split.
  - intros Hok.
    destruct (shors_algorithm_even depth n verbose w Heven Hok)
      as (w' & E & He & Hc & Hd).
    exists w'. split; [exact E|].
    cbn in Hc, Hd. rewrite app_nil_r in Hd. rewrite Nat.add_0_r in Hc. auto.
  - intros -> Hbad.
    destruct (shors_algorithm_header_refuses depth n w Hbad)
      as (w' & E & He & Hc & Hd).
    exists w'. split; [exact E|].
    cbn in Hc, Hd. rewrite app_nil_r in Hd. rewrite Nat.add_0_r in Hc. auto.
Qed.

Lemma even_gives_two_witness :
  (exists w',
      shors_algorithm (float_ops := ideal_float) 0 6 true
        (fresh_world (fun i => Z.of_nat i)) = (Ret (Some (2, 6 / 2)), w') /\
      cursor w' = 0%nat /\ drawn w' = [] /\
      entropy w' = (fun i => Z.of_nat i)) /\
  (exists w',
      shors_algorithm (float_ops := ideal_float) 0 (2 * str_bound) true
        (fresh_world (fun i => Z.of_nat i)) = (Raise ValueError, w') /\
      cursor w' = 0%nat /\ drawn w' = [] /\
      entropy w' = (fun i => Z.of_nat i)).
Proof.
  split.
  - apply (even_gives_two ideal_float 0 6 true
             (fresh_world (fun i => Z.of_nat i))).
    + lia.
    + reflexivity.
    + right. apply printable_small. apply Z.leb_le. reflexivity.
  - apply (even_gives_two ideal_float 0 (2 * str_bound) true
             (fresh_world (fun i => Z.of_nat i))).
    + pose proof ten_printable. lia.
    + rewrite Z.mul_comm. apply Z.mod_mul. lia.
    + reflexivity.
    + unfold printable. pose proof ten_printable. lia.
Defined.

(** ** Draws *)

Section Draws.

Context {float_ops : FloatOps}.



End Draws.





(** ** The perfect-power check *)

Lemma power_parts_bounded (n a k : Z) :
  2 <= a -> 1 <= k -> a ^ k = n ->
  0 <= a <= n /\ 0 <= k <= n /\ 0 <= a ^ (k - 1) <= n.
Proof.
  intros Ha Hk Hpow.
  assert (H1 : a ^ 1 <= a ^ k) by (apply Z.pow_le_mono_r; lia).
  rewrite Z.pow_1_r in H1.
  assert (H2 : k < 2 ^ k) by (apply Z.pow_gt_lin_r; lia).
  assert (H3 : 2 ^ k <= a ^ k) by (apply Z.pow_le_mono_l; lia).
  assert (H4 : a ^ (k - 1) <= a ^ k) by (apply Z.pow_le_mono_r; lia).
  assert (H5 : 0 <= a ^ (k - 1)) by (apply Z.pow_nonneg; lia).
  lia.
Qed.

Section PerfectPower.

Context {float_ops : FloatOps}.

(** An n whose root is computed has a double, so that [str] converts it. *)
Lemma rooted_printable (n k : Z) (root : N) :
  0 <= n -> root_round n k = Ret root -> printable n.
Proof.
  intros Hn Hroot. apply printable_float. split; [exact Hn|].
  destruct (Z.lt_ge_cases n float_limit) as [|Hbig]; [assumption|].
  rewrite (root_overflow n k Hbig) in Hroot. discriminate Hroot.
Qed.

(** The loop returns at the first exponent whose rounded root verifies. *)
Lemma perfect_power_loop_first (n : Z) (verbose : bool) (k : Z) (root : N)
    (ks2 : list Z) :
  root_round n k = Ret root -> Z.of_N root ^ k = n ->
  verbose = false \/
  Forall printable [n; Z.of_N root; k; Z.of_N root ^ (k - 1)] ->
  forall (ks1 : list Z) (w : world),
    (forall j, In j ks1 ->
               exists b, root_round n j = Ret b /\ Z.of_N b ^ j <> n) ->
    exists w',
      perfect_power_loop n verbose (ks1 ++ k :: ks2) w
      = (Ret (Returned (Z.of_N root, Z.of_N root ^ (k - 1))), w') /\
      extends w w' [].
Proof.
  intros Hroot Hpow Hok. induction ks1 as [|j ks1 IH]; intros w Hbefore.
  - cbn [app perfect_power_loop]. rewrite bind_lift, Hroot. cbv zeta.
    rewrite (proj2 (Z.eqb_eq _ _) Hpow).
    step_say_ok ltac:(destruct Hok as [Hq | Hall];
                      [left; exact Hq|];
                      rewrite Forall_forall in Hall;
                      narrated ltac:(apply Hall; cbn; tauto)).
    exists w0. split; [reflexivity | exact Hext].
  - cbn [app perfect_power_loop]. rewrite bind_lift.
    destruct (Hbefore j (or_introl eq_refl)) as (b & -> & Hb).
    cbv zeta. rewrite (proj2 (Z.eqb_neq _ _) Hb).
    apply IH. intros j' Hj'. apply Hbefore. now right.
Qed.

Lemma small_root_misses (n j : Z) (b : N) :
  2 < n -> 2 <= j ->
  (forall c, 2 <= c -> c ^ j <> n) -> Z.of_N b ^ j <> n.
Proof.
  intros Hn Hj Hmin.
  destruct (Z.le_gt_cases 2 (Z.of_N b)) as [Hb|Hb]; [now apply Hmin|].
  assert (E : Z.of_N b = 0 \/ Z.of_N b = 1) by lia.
  destruct E as [-> | ->].
  - rewrite Z.pow_0_l by lia. lia.
  - rewrite Z.pow_1_l by lia. lia.
Qed.

End PerfectPower.

(** C3, as stated, fails: 36 = 6^2 is a perfect power whose smallest
    exponent is 2, and the call returns (2, 18), not (6, 6): the even
    check comes first. *)
Lemma even_perfect_power_splits_by_two :
  ~ (forall (F : FloatOps) (depth : nat) (n a k : Z) (verbose : bool)
            (w : world),
        2 <= a -> 2 <= k -> n = a ^ k ->
        (forall j b, 2 <= j < k -> 2 <= b -> b ^ j <> n) ->
        result_of (shors_algorithm depth n verbose w)
        = Ret (Some (a, a ^ (k - 1)))).
Proof.
  intros H.
  specialize (H ideal_float 0%nat 36 6 2 false (fresh_world (fun _ => 0))
                ltac:(lia) ltac:(lia) eq_refl ltac:(intros; lia)).
  vm_compute in H. discriminate H.
Qed.

(** C3, amended: for every odd perfect power n = a^k with a >= 2 and
    k >= 2 the smallest valid exponent, the call returns (a, a^(k-1))
    without a draw, provided the floating-point steps are accurate at n:
    [int(math.log2(n))] is at least k, [round(n ** (1/j))] raises no error
    for the exponents j below k, and [round(n ** (1/k))] is a. *)
Theorem odd_perfect_power_splits (F : FloatOps) (depth : nat)
    (n a k top : Z) (verbose : bool) (w : world) :
  n mod 2 = 1 ->
  2 <= a -> 2 <= k -> n = a ^ k ->
  (forall j b, 2 <= j < k -> 2 <= b -> b ^ j <> n) ->
  log2_int n = Ret top -> k <= top ->
  (forall j, 2 <= j < k -> exists b, root_round n j = Ret b) ->
  root_round n k = Ret (Z.to_N a) ->
  exists w',
    shors_algorithm depth n verbose w = (Ret (Some (a, a ^ (k - 1))), w') /\
    cursor w' = cursor w /\ drawn w' = drawn w.
Proof.
  intros Hodd Ha Hk Hn Hmin Hlog Htop Hroots Hroot.
  destruct (power_parts_bounded n a k Ha ltac:(lia) (eq_sym Hn))
    as (Hba & Hbk & Hbq).
  assert (Hn2 : 2 < n).
  { subst n. assert (2 ^ 2 <= a ^ k); [|lia].
    transitivity (a ^ 2);
      [apply Z.pow_le_mono_l | apply Z.pow_le_mono_r]; lia. }
  assert (Hpn : printable n) by (apply (rooted_printable n k _ ltac:(lia) Hroot)).
  assert (Hbody : forall retry, exists w',
             shors_body retry n verbose w
             = (Ret (Some (a, a ^ (k - 1))), w') /\ extends w w' []).
  { intros retry. unfold shors_body.
    step_say_ok ltac:(narrated ltac:(exact Hpn)).
    rewrite Hodd. change (1 =? 0) with false. cbv iota.
    step_say_ok ltac:(narrated ltac:(idtac)).
    rewrite bind_lift, Hlog.
    rewrite (py_range_app 2 k (top + 1)) by lia.
    rewrite (py_range_cons k (top + 1)) by lia.
    destruct (perfect_power_loop_first n verbose k (Z.to_N a)
                (py_range (k + 1) (top + 1)) Hroot
                ltac:(rewrite Z2N.id by lia; now symmetry)
                ltac:(right; rewrite Z2N.id by lia;
                      repeat (apply Forall_cons;
                              [apply (printable_below _ n); [lia | exact Hpn]|]);
                      apply Forall_nil)
                (py_range 2 k) w1) as (w2 & E & Hext2).
    { intros j Hj. apply py_range_In in Hj.
      destruct (Hroots j Hj) as (b & Hb). exists b. split; [exact Hb|].
      apply small_root_misses; [exact Hn2 | lia|].
      intros c Hc. now apply Hmin. }
    rewrite (bind_returns _ _ _ _ _ E). rewrite Z2N.id by lia.
    exists w2. split; [reflexivity | chain]. }
  assert (Hcall : exists w',
             shors_algorithm depth n verbose w
             = (Ret (Some (a, a ^ (k - 1))), w') /\ extends w w' []).
  { destruct depth; cbn [shors_algorithm]; apply Hbody. }
  destruct Hcall as (w' & E & _ & Hc & Hd).
  exists w'. split; [exact E|].
  cbn in Hc, Hd. rewrite app_nil_r in Hd. rewrite Nat.add_0_r in Hc. auto.
Qed.

Lemma odd_perfect_power_splits_witness :
  exists w',
    shors_algorithm (float_ops := ideal_float) 0 27 true
      (fresh_world (fun _ => 0)) = (Ret (Some (3, 3 ^ (3 - 1))), w') /\
    cursor w' = 0%nat /\ drawn w' = [].
Proof.
  apply (odd_perfect_power_splits ideal_float 0 27 3 3 4 true
           (fresh_world (fun _ => 0))).
  - reflexivity.
  - lia.
  - lia.
  - reflexivity.
  - intros j b Hj Hb. assert (j = 2) by lia. subst j.
    rewrite Z.pow_2_r. destruct (Z.le_gt_cases b 5); nia.
  - reflexivity.
  - lia.
  - intros j Hj. eexists. vm_compute. reflexivity.
  - vm_compute. reflexivity.
Defined.

(** ** What a found order tells *)

Lemma find_order_found_modulus (a n : Z) (max_order : option Z) (r : Z) :
  find_order a n max_order = Ret (Some r) ->
  2 <= n /\ 1 <= r <= bound_of n max_order /\ a ^ r mod n = 1 /\
  (forall k, 1 <= k < r -> a ^ k mod n <> 1) /\
  find_order_iterations a n max_order = Z.to_nat r.
Proof.
  intros E.
  assert (Hn : n <> 0).
  { intros ->. unfold find_order, find_order_run in E.
    destruct (py_range 1 (bound_of 0 max_order + 1)) as [|k ks] eqn:Er;
      fold (bound_of 0 max_order) in E; rewrite Er in E; discriminate E. }
  unfold find_order, find_order_iterations in *.
  destruct (find_order_run_spec a n max_order Hn)
    as [(r' & Hr & Hpow & Hmin & Heq) | (_ & Heq)];
    rewrite Heq in *; cbn [fst snd] in *; [|discriminate E].
  injection E as ->.
  assert (2 <= n).
  { pose proof (Z.mod_pos_bound (a ^ r) n) as Hp.
    pose proof (Z.mod_neg_bound (a ^ r) n) as Hq.
    destruct (Z.eq_dec n 1) as [->|]; [rewrite Z.mod_1_r in Hpow; lia | lia]. }
  auto.
Qed.

Lemma period_bounds (a n r : Z) :
  find_order a n None = Ret (Some r) ->
  2 <= n /\ 1 <= r <= n /\
  0 <= a ^ (r / 2) mod n < n /\
  0 <= Z.gcd (a ^ (r / 2) mod n - 1) n <= n /\
  0 <= Z.gcd (a ^ (r / 2) mod n + 1) n <= n.
Proof.
  intros E.
  destruct (find_order_found_modulus a n None r E) as (Hn & Hr & _).
  cbn [bound_of] in Hr.
  split; [exact Hn|]. split; [exact Hr|].
  split; [apply Z.mod_pos_bound; lia|].
  split; (split; [apply Z.gcd_nonneg|];
          apply Z.divide_pos_le; [lia | apply Z.gcd_divide_r]).
Qed.

Lemma cofactor_bounds (n f : Z) :
  0 <= n -> 0 < f -> 0 <= n / f <= n /\ 0 <= f * (n / f) <= n.
Proof.
  intros Hn Hf.
  assert (H1 : 0 <= n / f) by (apply Z.div_pos; lia).
  assert (H2 : f * (n / f) <= n) by (apply Z.mul_div_le; lia).
  split; [split; [exact H1 | nia] | split; [nia | exact H2]].
Qed.

(** ** Failure paths *)

(** One narration step of [use_period]: every number narrated is the base
    or is bounded by the modulus, which [Hsay] turns into printability. *)
Ltac period_step Hsay :=
  step_say_ok ltac:(
    apply Hsay; unfold success_lines; cbn [flat_map numbers app];
    repeat (apply Forall_cons; [first [left; reflexivity | right; lia]|]);
    apply Forall_nil).

Section Failure.

Context {float_ops : FloatOps}.

Lemma shors_body_not_none (retry : Z -> bool -> M (option (Z * Z))) (n : Z) :
  (forall w, fst (retry n false w) <> Ret None) ->
  forall verbose w, fst (shors_body retry n verbose w) <> Ret None.
Proof.
  intros Hretry verbose w E.
  pose proof (shors_body_exit retry n verbose w) as Hexit.
  rewrite E in Hexit.
  inversion Hexit as
    [ | | | | | |new a w' _ Hex _ Hnone
    | |new a r w1 _ _ _ _ _ Hfst
    |]; subst.
  - destruct (exhausted_base _ _ _ Hex) as (Ha & Hg).
    destruct (find_order_default_finds a n ltac:(lia) Hg) as (r & Hr).
    congruence.
  - now apply (Hretry w1).
Qed.

Lemma shors_algorithm_not_none (n : Z) :
  forall depth verbose w, fst (shors_algorithm depth n verbose w) <> Ret None.
Proof.
  induction depth as [|depth IH]; intros verbose w; cbn [shors_algorithm];
    apply shors_body_not_none.
  - intros w0. discriminate.
  - intros w0. apply IH.
Qed.

Lemma sampling_loop_finished (n : Z) (verbose : bool) (attempts : list Z)
    (a0 a : Z) (w w1 : world) :
  attempts <> [] ->
  sampling_loop n verbose attempts a0 w = (Ret (Finished a), w1) ->
  2 <= a <= n - 1 /\ Z.gcd a n = 1.
Proof.
  intros Hne E.
  destruct (sampling_loop_run n verbose attempts a0 w)
    as (new & w' & _ & Hrange & _ &
        [(_ & _ & E') | [(pre & a' & _ & _ & _ & _ & E')
                        | [(Hlen & Hcop & E') | (_ & E')]]]);
    rewrite E in E'; try discriminate E'.
  injection E' as -> _.
  assert (Hin : In (last new a0) new).
  { apply last_In. intros ->. destruct attempts; [now apply Hne | discriminate Hlen]. }
  rewrite Forall_forall in Hrange, Hcop. auto.
Qed.



(** With verbose on, the line that announces the order narrates a and n:
    it raises when [str] refuses one of them. *)
Lemma use_period_refuses (retry : Z -> bool -> M (option (Z * Z)))
    (n a r : Z) (w : world) :
  find_order a n None = Ret (Some r) ->
  ~ (printable a /\ printable n) ->
  exists w1, extends w w1 [] /\
             use_period retry n true a w = (Raise ValueError, w1).
Proof.
  intros Er Hbad. unfold use_period.
  step_say_ok ltac:(narrated ltac:(idtac)). rewrite bind_lift, Er.
  match goal with
  | |- context [bind (say true ?l) ?k w0] =>
      destruct (say_refuses l w0) as (w1 & Hext1 & E)
  end.
  - cbn [flat_map numbers app]. intros Hall. apply Hbad.
    inversion Hall as [|? ? Ha Hrest]; subst.
    inversion Hrest as [|? ? _ Hrest']; subst.
    inversion Hrest' as [|? ? Hn _]; subst. auto.
  - exists w1. split; [chain|]. now apply bind_raises.
Qed.

Lemma printable_dec (z : Z) : {printable z} + {~ printable z}.
Proof. apply Z_lt_dec. Qed.


End Failure.




(** ** Narration and determinism *)

Lemma same_future_refl (w : world) : same_future w w.
Proof. intros i. reflexivity. Qed.

Lemma same_future_quiet (w1 w1' w2 w2' : world) :
  extends w1 w1' [] -> extends w2 w2' [] ->
  same_future w1 w2 -> same_future w1' w2'.
Proof.
  intros (E1 & C1 & _) (E2 & C2 & _) H i.
  rewrite E1, E2, C1, C2. cbn. rewrite !Nat.add_0_r. apply H.
Qed.

Lemma same_future_randint (lo hi : Z) :
  related same_future (randint lo hi) (randint lo hi).
Proof.
  intros w1 w2 H. unfold randint.
  destruct (hi <? lo); [split; [reflexivity | exact H]|].
  cbn [fst snd]. pose proof (H 0%nat) as H0. rewrite !Nat.add_0_r in H0.
  rewrite H0. split; [reflexivity|].
  intros i. cbn [entropy cursor].
  replace (S (cursor w1) + i)%nat with (cursor w1 + S i)%nat by lia.
  replace (S (cursor w2) + i)%nat with (cursor w2 + S i)%nat by lia.
  apply H.
Qed.

Lemma same_rng_refl (w : world) : same_rng w w.
Proof. unfold same_rng. auto. Qed.

Lemma same_rng_quiet (w1 w1' w2 w2' : world) :
  extends w1 w1' [] -> extends w2 w2' [] ->
  same_rng w1 w2 -> same_rng w1' w2'.
Proof.
  intros (E1 & C1 & D1) (E2 & C2 & D2) (E & C & D). unfold same_rng.
  rewrite E1, E2, C1, C2, D1, D2, E, C, D. auto.
Qed.

Lemma same_rng_randint (lo hi : Z) :
  related same_rng (randint lo hi) (randint lo hi).
Proof.
  intros w1 w2 (E & C & D). unfold randint.
  destruct (hi <? lo); [split; [reflexivity | unfold same_rng; auto]|].
  cbn [fst snd]. rewrite E, C, D. split; [reflexivity|].
  unfold same_rng. cbn [entropy cursor drawn]. auto.
Qed.

Lemma say_true_cons (line : list piece) (rest : list (list piece))
    (w : world) :
  say true (line :: rest) w
  = match fmt line with
    | Ret s => say true rest (printed w [s])
    | Raise e => (Raise e, w)
    end.
Proof.
  cbn [say]. unfold bind at 1. rewrite bind_lift.
  destruct (fmt line); reflexivity.
Qed.

(** Whether a narration raises does not depend on the world. *)
Lemma say_result (verbose : bool) (lines : list (list piece)) :
  forall w1 w2, fst (say verbose lines w1) = fst (say verbose lines w2).
Proof.
  destruct verbose.
  - induction lines as [|line rest IH]; intros w1 w2; [reflexivity|].
    rewrite !say_true_cons. destruct (fmt line); [apply IH | reflexivity].
  - intros w1 w2. now rewrite !say_false_run.
Qed.

Lemma power_parts_printable (n a k : Z) :
  0 <= a -> 1 <= k -> a ^ k = n -> printable n ->
  printable a /\ printable (a ^ (k - 1)).
Proof.
  intros Ha Hk Hpow Hn.
  destruct (Z.eq_dec a 0) as [->|Hpos].
  - split; [apply printable_small; cbn; lia|].
    destruct (Z.eq_dec k 1) as [->|Hk1].
    + apply printable_small. cbn. lia.
    + rewrite Z.pow_0_l by lia. apply printable_small. cbn. lia.
  - assert (H1 : a ^ 1 <= a ^ k) by (apply Z.pow_le_mono_r; lia).
    rewrite Z.pow_1_r in H1.
    assert (H2 : a ^ (k - 1) <= a ^ k) by (apply Z.pow_le_mono_r; lia).
    assert (H3 : 0 <= a ^ (k - 1)) by (apply Z.pow_nonneg; lia).
    split; apply (printable_below _ n); try exact Hn; lia.
Qed.

Lemma gcd_bounds (a n : Z) : 0 < n -> 0 < Z.gcd a n <= n.
Proof.
  intros Hn.
  assert (H0 : Z.gcd a n <> 0).
  { intros E. apply Z.gcd_eq_0_r in E. lia. }
  pose proof (Z.gcd_nonneg a n).
  split; [lia|]. apply Z.divide_pos_le; [lia | apply Z.gcd_divide_r].
Qed.

Lemma half_bounded (n : Z) : Z.abs (n / 2) <= Z.abs n.
Proof.
  pose proof (Z.div_mod n 2 ltac:(lia)).
  pose proof (Z.mod_pos_bound n 2 ltac:(lia)). lia.
Qed.

Section Related.

(** [R] relates the worlds of two runs; it is kept by steps that leave the
    generator alone, and two draws in related worlds give the same value
    and related worlds. *)
Variable R : world -> world -> Prop.

Hypothesis R_quiet :
  forall w1 w1' w2 w2',
    extends w1 w1' [] -> extends w2 w2' [] -> R w1 w2 -> R w1' w2'.

Hypothesis R_randint :
  forall lo hi, related R (randint lo hi) (randint lo hi).

Lemma related_ret {A} (x : A) : related R (ret x) (ret x).
Proof. intros w1 w2 H. split; [reflexivity | exact H]. Qed.

Lemma related_raise {A} (e : exn) : related R (@raise A e) (raise e).
Proof. intros w1 w2 H. split; [reflexivity | exact H]. Qed.

Lemma related_bind {A B} (m1 m2 : M A) (k1 k2 : A -> M B) :
  related R m1 m2 -> (forall x, related R (k1 x) (k2 x)) ->
  related R (bind m1 k1) (bind m2 k2).
Proof.
  intros Hm Hk w1 w2 H. destruct (Hm w1 w2 H) as (E & HR).
  unfold bind.
  destruct (m1 w1) as [o1 w1'], (m2 w2) as [o2 w2']. cbn [fst snd] in *.
  subst o2. destruct o1 as [x|e]; [now apply Hk | split; [reflexivity | exact HR]].
Qed.

(** The same, when what the first computation returns is known to
    satisfy [P]. *)
Lemma related_bind_post {A B} (P : A -> Prop) (m1 m2 : M A)
    (k1 k2 : A -> M B) :
  (forall w x w', m1 w = (Ret x, w') -> P x) ->
  related R m1 m2 -> (forall x, P x -> related R (k1 x) (k2 x)) ->
  related R (bind m1 k1) (bind m2 k2).
Proof.
  intros Hpost Hm Hk w1 w2 H. destruct (Hm w1 w2 H) as (E & HR).
  pose proof (Hpost w1) as Hp.
  unfold bind.
  destruct (m1 w1) as [o1 w1'], (m2 w2) as [o2 w2']. cbn [fst snd] in *.
  subst o2. destruct o1 as [x|e]; [|split; [reflexivity | exact HR]].
  apply Hk; [exact (Hp x w1' eq_refl) | exact HR].
Qed.

Lemma related_bind_lift {A B} (o : outcome A) (k1 k2 : A -> M B) :
  (forall x, o = Ret x -> related R (k1 x) (k2 x)) ->
  related R (bind (lift o) k1) (bind (lift o) k2).
Proof.
  intros Hk. apply (related_bind_post (fun x => o = Ret x)).
  - intros w x w' E. unfold lift in E. congruence.
  - intros w1 w2 H. split; [reflexivity | exact H].
  - exact Hk.
Qed.

Lemma related_bind_randint {B} (lo hi : Z) (k1 k2 : Z -> M B) :
  (forall a, lo <= a <= hi -> related R (k1 a) (k2 a)) ->
  related R (bind (randint lo hi) k1) (bind (randint lo hi) k2).
Proof.
  intros Hk. apply (related_bind_post (fun a => lo <= a <= hi)).
  - intros w x w' E.
    destruct (randint_run lo hi w) as [(_ & E') | (a & w1 & Ha & _ & E')];
      rewrite E in E'; [discriminate E'|].
    injection E' as -> _. exact Ha.
  - apply R_randint.
  - exact Hk.
Qed.

(** Two narrations of the same lines end alike if both are on or both are
    off, or if [str] converts every number of the lines. *)
Lemma related_say (v1 v2 : bool) (lines : list (list piece)) :
  v1 = v2 \/ Forall printable (flat_map numbers lines) ->
  related R (say v1 lines) (say v2 lines).
Proof.
  intros Hok w1 w2 H.
  destruct (say_run v1 lines w1) as (w1' & Hext1 & Hc1).
  destruct (say_run v2 lines w2) as (w2' & Hext2 & Hc2).
  assert (Hs1 : snd (say v1 lines w1) = w1')
    by (destruct Hc1 as [E | (_ & _ & E)]; now rewrite E).
  assert (Hs2 : snd (say v2 lines w2) = w2')
    by (destruct Hc2 as [E | (_ & _ & E)]; now rewrite E).
  split; [|rewrite Hs1, Hs2; exact (R_quiet _ _ _ _ Hext1 Hext2 H)].
  destruct Hok as [-> | Hall]; [apply say_result|].
  destruct Hc1 as [E1 | (_ & Hbad & _)]; [|contradiction].
  destruct Hc2 as [E2 | (_ & Hbad & _)]; [|contradiction].
  now rewrite E1, E2.
Qed.

Context {float_ops : FloatOps}.

Lemma related_perfect_power_loop (n : Z) (v1 v2 : bool) (ks : list Z) :
  v1 = v2 \/ (printable n /\ Forall (fun k => 1 <= k /\ printable k) ks) ->
  related R (perfect_power_loop n v1 ks) (perfect_power_loop n v2 ks).
Proof.
  induction ks as [|k ks IH]; intros Hok; cbn [perfect_power_loop].
  - apply related_ret.
  - apply related_bind_lift. intros root _. cbv zeta.
    destruct (Z.eqb_spec (Z.of_N root ^ k) n) as [Hpow|Hpow].
    + apply related_bind; [|intros _; apply related_ret].
      apply related_say.
      destruct Hok as [Hv | (Hn & Hks)]; [left; exact Hv|].
      inversion Hks as [|? ? (Hk1 & Hk) _]; subst.
      destruct (power_parts_printable _ (Z.of_N root) k ltac:(lia) Hk1
                  eq_refl Hn) as (Ha & Hrest).
      narrated ltac:(assumption).
    + apply IH. destruct Hok as [Hv | (Hn & Hks)]; [left; exact Hv|].
      right. split; [exact Hn|]. now inversion Hks.
Qed.

(** Proves that the numbers of a narration are printable, each being
    bounded by the printable [n]. *)
Ltac all_below n Hn :=
  unfold success_lines; cbn [flat_map numbers app];
  repeat (apply Forall_cons; [apply (printable_below _ n); [lia | exact Hn]|]);
  apply Forall_nil.

Lemma related_sampling_loop (n : Z) (v1 v2 : bool) (attempts : list Z) :
  v1 = v2 \/
  (printable n /\ Forall (fun t => Z.abs (t + 1) <= 10) attempts) ->
  forall a0, related R (sampling_loop n v1 attempts a0)
                       (sampling_loop n v2 attempts a0).
Proof.
  induction attempts as [|attempt rest IH]; intros Hok a0;
    cbn [sampling_loop].
  - apply related_ret.
  - apply related_bind_randint. intros a Ha. cbv zeta.
    pose proof (gcd_bounds a n ltac:(lia)) as Hg.
    pose proof (cofactor_bounds n (Z.gcd a n) ltac:(lia) ltac:(lia)) as Hq.
    apply related_bind.
    { apply related_say.
      destruct Hok as [Hv | (Hn & Hall)]; [left; exact Hv | right].
      cbn [flat_map numbers app]. apply Forall_cons.
      { apply printable_small. now inversion Hall. }
      all_below n Hn. }
    intros _. destruct (negb (Z.gcd a n =? 1)).
    + apply related_bind; [|intros _; apply related_ret].
      apply related_say.
      destruct Hok as [Hv | (Hn & _)]; [left; exact Hv | right].
      all_below n Hn.
    + apply IH. destruct Hok as [Hv | (Hn & Hall)]; [left; exact Hv|].
      right. split; [exact Hn|]. now inversion Hall.
Qed.

Lemma related_use_period (retry1 retry2 : Z -> bool -> M (option (Z * Z)))
    (n : Z) (v1 v2 : bool) (a : Z) :
  related R (retry1 n false) (retry2 n false) ->
  v1 = v2 \/ (printable n /\ 0 <= a <= n) ->
  related R (use_period retry1 n v1 a) (use_period retry2 n v2 a).
Proof.
  intros Hretry Hok. unfold use_period.
  assert (Hsay : forall lines,
             Forall (fun z => Z.abs z <= Z.abs n) (flat_map numbers lines) ->
             related R (say v1 lines) (say v2 lines)).
  { intros lines Hall. apply related_say.
    destruct Hok as [Hv | (Hn & _)]; [left; exact Hv | right].
    eapply Forall_impl; [|exact Hall].
    intros z Hz. exact (printable_below _ n Hz Hn). }
  apply related_bind; [apply related_say; right; constructor|]. intros _.
  apply related_bind_lift. intros [r|] Er.
  - destruct (period_bounds a n r Er) as (Hn & Hr & Hx & Hf1 & Hf2).
    set (x := a ^ (r / 2) mod n) in *.
    assert (Ha : v1 = v2 \/ 0 <= a <= n)
      by (destruct Hok as [Hv | (_ & Ha)]; [left; exact Hv | right; exact Ha]).
    assert (Hstep : forall lines,
               Forall (fun z => z = a \/ 0 <= z <= n)
                      (flat_map numbers lines) ->
               related R (say v1 lines) (say v2 lines)).
    { intros lines Hall. destruct Ha as [Hv | Ha].
      - apply related_say. left. exact Hv.
      - apply Hsay. eapply Forall_impl; [|exact Hall].
        intros z [-> | Hz]; lia. }
    assert (Hsuccess : forall f, 1 < f <= n ->
               related R (say v1 (success_lines n f))
                         (say v2 (success_lines n f))).
    { intros f Hf. apply Hstep.
      pose proof (cofactor_bounds n f ltac:(lia) ltac:(lia)) as Hq.
      unfold success_lines. cbn [flat_map numbers app].
      repeat (apply Forall_cons; [right; lia|]). apply Forall_nil. }
    apply related_bind.
    { apply Hstep. cbn [flat_map numbers app].
      repeat (apply Forall_cons; [first [left; reflexivity | right; lia]|]).
      apply Forall_nil. }
    intros _. destruct (r mod 2 =? 1).
    { apply related_bind; [|intros _; exact Hretry].
      apply Hstep. cbn [flat_map numbers app].
      repeat (apply Forall_cons; [right; lia|]). apply Forall_nil. }
    apply related_bind.
    { apply Hstep. cbn [flat_map numbers app].
      repeat (apply Forall_cons; [right; lia|]). apply Forall_nil. }
    intros _. cbv zeta. fold x.
    apply related_bind.
    { apply Hstep. cbn [flat_map numbers app].
      repeat (apply Forall_cons; [first [left; reflexivity | right; lia]|]).
      apply Forall_nil. }
    intros _. destruct (x =? n - 1).
    { apply related_bind; [|intros _; exact Hretry].
      apply Hstep. cbn [flat_map numbers app].
      repeat (apply Forall_cons; [right; lia|]). apply Forall_nil. }
    apply related_bind.
    { apply Hstep. cbn [flat_map numbers app].
      repeat (apply Forall_cons; [right; lia|]). apply Forall_nil. }
    intros _. apply related_bind.
    { apply Hstep. cbn [flat_map numbers app].
      repeat (apply Forall_cons; [right; lia|]). apply Forall_nil. }
    intros _.
    destruct (Z.ltb_spec 1 (Z.gcd (x - 1) n)) as [H1|H1]; cbn [andb].
    { destruct (Z.gcd (x - 1) n <? n).
      { apply related_bind; [|intros _; apply related_ret].
        apply Hsuccess. lia. }
      destruct (Z.ltb_spec 1 (Z.gcd (x + 1) n)) as [H2|H2]; cbn [andb].
      { destruct (Z.gcd (x + 1) n <? n).
        { apply related_bind; [|intros _; apply related_ret].
          apply Hsuccess. lia. }
        apply related_bind; [|intros _; exact Hretry].
        apply related_say. right. constructor. }
      apply related_bind; [|intros _; exact Hretry].
      apply related_say. right. constructor. }
    destruct (Z.ltb_spec 1 (Z.gcd (x + 1) n)) as [H2|H2]; cbn [andb].
    { destruct (Z.gcd (x + 1) n <? n).
      { apply related_bind; [|intros _; apply related_ret].
        apply Hsuccess. lia. }
      apply related_bind; [|intros _; exact Hretry].
      apply related_say. right. constructor. }
    apply related_bind; [|intros _; exact Hretry].
    apply related_say. right. constructor.
  - apply related_bind; [|intros _; apply related_ret].
    apply related_say. right. constructor.
Qed.

Lemma related_shors_body (retry1 retry2 : Z -> bool -> M (option (Z * Z)))
    (n : Z) (v1 v2 : bool) :
  related R (retry1 n false) (retry2 n false) ->
  v1 = v2 \/ printable n ->
  related R (shors_body retry1 n v1) (shors_body retry2 n v2).
Proof.
  intros Hretry Hok. unfold shors_body.
  assert (Hsay : forall lines,
             Forall (fun z => Z.abs z <= Z.abs n) (flat_map numbers lines) ->
             related R (say v1 lines) (say v2 lines)).
  { intros lines Hall. apply related_say.
    destruct Hok as [Hv | Hn]; [left; exact Hv | right].
    eapply Forall_impl; [|exact Hall].
    intros z Hz. exact (printable_below _ n Hz Hn). }
  pose proof (half_bounded n) as Hhalf.
  apply related_bind.
  { apply Hsay. cbn [flat_map numbers app].
    repeat (apply Forall_cons; [lia|]). apply Forall_nil. }
  intros _. destruct (n mod 2 =? 0).
  { apply related_bind; [|intros _; apply related_ret].
    apply Hsay. cbn [flat_map numbers app].
    repeat (apply Forall_cons; [lia|]). apply Forall_nil. }
  apply related_bind; [apply related_say; right; constructor|]. intros _.
  apply related_bind_lift. intros top Etop.
  apply related_bind.
  { apply related_perfect_power_loop.
    destruct Hok as [Hv | Hn]; [left; exact Hv | right].
    split; [exact Hn|]. apply Forall_forall. intros k Hk.
    apply py_range_In in Hk. pose proof (log2_range n top Etop) as Htop.
    split; [lia|]. apply printable_float. lia. }
  intros [factors|[]]; [apply related_ret|].
  apply related_bind; [apply related_say; right; constructor|]. intros _.
  apply (related_bind_post
           (fun s => match s with
                     | Returned _ => True
                     | Finished a => 2 <= a <= n - 1
                     end)).
  - intros w [factors|a] w' E; [exact I|].
    refine (proj1 (sampling_loop_finished n v1 _ 0 a w w' _ E)).
    intros Hnil. vm_compute in Hnil. discriminate Hnil.
  - apply related_sampling_loop.
    destruct Hok as [Hv | Hn]; [left; exact Hv | right].
    split; [exact Hn|]. apply Forall_forall. intros t Ht.
    apply py_range_In in Ht. unfold max_attempts in Ht. lia.
  - intros [factors|a] Ha; [apply related_ret|].
    apply related_use_period; [exact Hretry|].
    destruct Hok as [Hv | Hn]; [left; exact Hv | right].
    split; [exact Hn | lia].
Qed.

Lemma related_shors_algorithm (n : Z) :
  forall depth v1 v2,
    v1 = v2 \/ printable n ->
    related R (shors_algorithm depth n v1) (shors_algorithm depth n v2).
Proof.
  induction depth as [|depth IH]; intros v1 v2 Hok; cbn [shors_algorithm];
    (apply related_shors_body; [|exact Hok]).
  - apply related_raise.
  - apply IH. left. reflexivity.
Qed.

End Related.

(** C8, as stated, fails: with verbose on, the header line of the call on
    n = 10^4300 raises [ValueError], when [str] refuses n; with verbose
    off the same call returns (2, n/2). *)
Lemma narration_can_raise :
  ~ (forall (F : FloatOps) (depth : nat) (n : Z) (w : world),
        result_of (shors_algorithm depth n true w)
        = result_of (shors_algorithm depth n false w)).
Proof.
  intros H.
  specialize (H ideal_float 0%nat (10 ^ int_max_str_digits)
                (fresh_world (fun _ => 0))).
  rewrite <- str_bound_value in H.
  destruct (shors_algorithm_header_refuses (float_ops := ideal_float) 0
              str_bound (fresh_world (fun _ => 0))) as (w1 & E1 & _).
  { unfold printable. lia. }
  destruct (shors_algorithm_even (float_ops := ideal_float) 0 str_bound false
              (fresh_world (fun _ => 0))) as (w2 & E2 & _).
  { vm_compute. reflexivity. }
  { left. reflexivity. }
  unfold result_of in H. rewrite E1, E2 in H. discriminate H.
Qed.

(** C8, amended: the verbose flag does not influence the result of a call
    on an n that [str] converts (an n of at most 4300 digits): in worlds
    whose generators deliver the same values from the call on, the call
    with verbose on and the call with verbose off return the same value.
    With verbose on, the call on a longer n raises [ValueError] at its
    header line.  For a given verbose, the result is a function of n and
    of the values the generator delivers from the call on (for a given
    floating-point library and recursion budget), whatever was printed or
    drawn before. *)
Theorem verbose_is_cosmetic (F : FloatOps) (depth : nat) (n : Z) :
  (printable n ->
   forall v1 v2 w1 w2,
     same_future w1 w2 ->
     result_of (shors_algorithm depth n v1 w1)
     = result_of (shors_algorithm depth n v2 w2)) /\
  (~ printable n ->
   forall w, result_of (shors_algorithm depth n true w) = Raise ValueError) /\
  (forall verbose w1 w2,
      same_future w1 w2 ->
      result_of (shors_algorithm depth n verbose w1)
      = result_of (shors_algorithm depth n verbose w2)).
Proof.
  split; [|split].
  - intros Hn v1 v2 w1 w2 H.
    apply (related_shors_algorithm same_future same_future_quiet
             same_future_randint n depth v1 v2 (or_intror Hn) w1 w2 H).
  - intros Hbad w.
    destruct (shors_algorithm_header_refuses depth n w Hbad) as (w' & E & _).
    unfold result_of. now rewrite E.
  - intros verbose w1 w2 H.
    apply (related_shors_algorithm same_future same_future_quiet
             same_future_randint n depth verbose verbose
             (or_introl eq_refl) w1 w2 H).
Qed.

Lemma verbose_is_cosmetic_witness :
  result_of (shors_algorithm (float_ops := ideal_float) 3 21 true
               (fresh_world (fun i => Z.of_nat i)))
  = result_of (shors_algorithm (float_ops := ideal_float) 3 21 false
                 {| entropy := fun i => Z.of_nat i - 2; cursor := 2;
                    drawn := [5; 7]; stdout := [] |})
  /\ result_of (shors_algorithm (float_ops := ideal_float) 3 (3 * str_bound)
                  true (fresh_world (fun i => Z.of_nat i)))
     = Raise ValueError
  /\ result_of (shors_algorithm (float_ops := ideal_float) 3 21 true
                  (fresh_world (fun i => Z.of_nat i)))
     = result_of (shors_algorithm (float_ops := ideal_float) 3 21 true
                    {| entropy := fun i => Z.of_nat i - 2; cursor := 2;
                       drawn := [5; 7]; stdout := [] |}).
Proof.
  assert (Hfut : same_future (fresh_world (fun i => Z.of_nat i))
                   {| entropy := fun i => Z.of_nat i - 2; cursor := 2;
                      drawn := [5; 7]; stdout := [] |}).
  { intros i. cbn [entropy cursor fresh_world]. lia. }
  split; [|split].
  - apply (proj1 (verbose_is_cosmetic ideal_float 3 21)); [|exact Hfut].
    apply printable_float. split; [lia|]. apply Z.ltb_lt. reflexivity.
  - apply (proj1 (proj2 (verbose_is_cosmetic ideal_float 3 (3 * str_bound)))).
    unfold printable. pose proof ten_printable. lia.
  - apply (proj2 (proj2 (verbose_is_cosmetic ideal_float 3 21))). exact Hfut.
Defined.

(** * Further properties of the Order Finder *)

(** A scan over a modulus that never leaves the residue 1 finds nothing. *)
Lemma find_order_loop_never_one (a n : Z) :
  n <> 0 -> (forall v, v mod n <> 1) ->
  forall (rs : list Z) (result : Z) (iters : nat),
    find_order_loop a n rs result iters
    = (Ret None, (iters + List.length rs)%nat).
Proof.
  intros Hn Hnever. induction rs as [|r rs IH]; intros result iters.
  - cbn. f_equal. lia.
  - cbn [find_order_loop List.length]. unfold py_mod.
    destruct (Z.eqb_spec n 0) as [|_]; [contradiction|].
    destruct (Z.eqb_spec ((result * a) mod n) 1) as [E|_].
    + exfalso. exact (Hnever _ E).
    + rewrite IH. f_equal. lia.
Qed.

(** X1: a zero modulus.  With [n = 0] the first iteration divides by zero:
    [find_order] raises [ZeroDivisionError] for every bound of at least 1,
    and returns None without an iteration for a bound below 1 and for the
    default bound, which is then 0. *)
Theorem find_order_zero_modulus (a : Z) :
  (forall m, 1 <= m ->
             find_order a 0 (Some m) = Raise ZeroDivisionError /\
             find_order_iterations a 0 (Some m) = 1%nat) /\
  (forall m, m <= 0 ->
             find_order a 0 (Some m) = Ret None /\
             find_order_iterations a 0 (Some m) = 0%nat) /\
  find_order a 0 None = Ret None.
Proof.
  split; [|split].
  - intros m Hm. unfold find_order, find_order_iterations, find_order_run.
    rewrite py_range_cons by lia. split; reflexivity.
  - intros m Hm. unfold find_order, find_order_iterations, find_order_run.
    rewrite py_range_nil by lia. split; reflexivity.
  - reflexivity.
Qed.

Lemma find_order_zero_modulus_witness :
  find_order 7 0 (Some 3) = Raise ZeroDivisionError /\
  find_order 7 0 (Some (-2)) = Ret None.
Proof.
  destruct (find_order_zero_modulus 7) as (Hraise & Hnone & _).
  split.
  - apply (Hraise 3). lia.
  - apply (Hnone (-2)). lia.
Defined.

(** X2: a modulus of 1 or a negative modulus.  The running product is then
    never 1, so [find_order] returns None after scanning the whole range;
    an order is only ever returned for a modulus of at least 2. *)
Theorem find_order_needs_modulus_two (a n : Z) (max_order : option Z) :
  (n = 1 \/ n < 0 ->
   find_order a n max_order = Ret None /\
   find_order_iterations a n max_order
   = Z.to_nat (bound_of n max_order)) /\
  (forall r, find_order a n max_order = Ret (Some r) -> 2 <= n).
Proof.
  split.
  - intros Hn. unfold find_order, find_order_iterations, find_order_run.
    fold (bound_of n max_order).
    rewrite find_order_loop_never_one.
    + cbn [fst snd]. rewrite py_range_length. split; [reflexivity|].
      f_equal. lia.
    + lia.
    + intros v. destruct Hn as [-> | Hneg].
      * rewrite Z.mod_1_r. lia.
      * pose proof (Z.mod_neg_bound v n Hneg). lia.
  - intros r E. apply (find_order_found_modulus a n max_order r E).
Qed.

Lemma find_order_needs_modulus_two_witness :
  (find_order 5 (-7) (Some 4) = Ret None /\
   find_order_iterations 5 (-7) (Some 4) = 4%nat) /\
  2 <= 15.
Proof.
  split.
  - apply (proj1 (find_order_needs_modulus_two 5 (-7) (Some 4))). lia.
  - apply (proj2 (find_order_needs_modulus_two 2 15 None) 4). reflexivity.
Defined.

Lemma find_order_loop_reduces_base (a n : Z) :
  n <> 0 ->
  forall (rs : list Z) (result : Z) (iters : nat),
    find_order_loop (a mod n) n rs result iters
    = find_order_loop a n rs result iters.
Proof.
  intros Hn. induction rs as [|r rs IH]; intros result iters; [reflexivity|].
  cbn [find_order_loop]. unfold py_mod.
  destruct (Z.eqb_spec n 0) as [|_]; [contradiction|].
  rewrite Z.mul_mod_idemp_r by assumption.
  destruct ((result * a) mod n =? 1); [reflexivity | apply IH].
Qed.

(** X3: the base counts modulo n only.  For a nonzero modulus,
    [find_order(a % n, n, max_order)] and [find_order(a, n, max_order)]
    give the same result after the same number of iterations, so a base
    outside [1, n-1], negative ones included, is handled as its residue. *)
Theorem find_order_reduces_base (a n : Z) (max_order : option Z) :
  n <> 0 ->
  find_order (a mod n) n max_order = find_order a n max_order /\
  find_order_iterations (a mod n) n max_order
  = find_order_iterations a n max_order.
Proof.
  intros Hn. unfold find_order, find_order_iterations, find_order_run.
  now rewrite find_order_loop_reduces_base.
Qed.

Lemma find_order_reduces_base_witness :
  find_order (-13 mod 15) 15 None = find_order (-13) 15 None /\
  find_order_iterations (-13 mod 15) 15 None
  = find_order_iterations (-13) 15 None.
Proof. apply (find_order_reduces_base (-13) 15 None). lia. Defined.

Lemma pow_of_one_mod (x n q : Z) :
  2 <= n -> 0 <= q -> x mod n = 1 -> x ^ q mod n = 1.
Proof.
  intros Hn Hq Hx. revert q Hq. apply natlike_ind.
  - rewrite Z.pow_0_r. apply Z.mod_small. lia.
  - intros q Hq IH. rewrite Z.pow_succ_r by assumption.
    rewrite Z.mul_mod, Hx, IH by lia. apply Z.mod_small. lia.
Qed.

(** X4: the returned order divides exactly the exponents that give 1.  If
    [find_order] returns r, then for every k >= 0, a^k mod n = 1 if and
    only if r divides k. *)
Theorem find_order_divides (a n : Z) (max_order : option Z) (r k : Z) :
  find_order a n max_order = Ret (Some r) -> 0 <= k ->
  (a ^ k mod n = 1 <-> (r | k)).
Proof.
  intros E Hk.
  destruct (find_order_found_modulus a n max_order r E)
    as (Hn & Hr & Hpow & Hmin & _).
  split.
  - intros Hone. apply Z.mod_divide; [lia|].
    pose proof (Z.mod_pos_bound k r ltac:(lia)) as Hs.
    destruct (Z.eq_dec (k mod r) 0) as [|Hnz]; [assumption|].
    exfalso. apply (Hmin (k mod r)); [lia|].
    rewrite <- Hone.
    rewrite (Z.div_mod k r) at 2 by lia.
    rewrite Z.pow_add_r, Z.pow_mul_r by (try apply Z.mul_nonneg_nonneg;
                                          try apply Z.div_pos; lia).
    rewrite Z.mul_mod by lia.
    rewrite (pow_of_one_mod (a ^ r) n (k / r)) by
      (try apply Z.div_pos; (assumption || lia)).
    rewrite Z.mul_1_l. now rewrite Z.mod_mod by lia.
  - intros (c & ->).
    assert (Hc : 0 <= c) by nia.
    rewrite Z.mul_comm, Z.pow_mul_r by lia.
    apply pow_of_one_mod; assumption.
Qed.

Lemma find_order_divides_witness :
  (2 ^ 12 mod 15 = 1 <-> (4 | 12)) /\ (2 ^ 6 mod 15 = 1 <-> (4 | 6)).
Proof.
  split.
  - apply (find_order_divides 2 15 None 4 12); [reflexivity | lia].
  - apply (find_order_divides 2 15 None 4 6); [reflexivity | lia].
Defined.

(** The powers of a coprime base are never 0 modulo n, so the n powers
    a^0 .. a^(n-1) take at most n - 1 values and two of them coincide: the
    order is at most n - 1. *)
Lemma order_exists_below (a n : Z) :
  2 <= n -> Z.gcd a n = 1 -> exists r, 1 <= r <= n - 1 /\ a ^ r mod n = 1.
Proof.
  intros Hn Hg.
  set (f := fun i : nat => a ^ Z.of_nat i mod n).
  set (l := map f (seq 0 (Z.to_nat n))).
  assert (Hdup : ~ NoDup l).
  { intros Hnd.
    assert (Hincl : incl l (py_range 1 n)).
    { intros v Hv. apply in_map_iff in Hv as (i & <- & _).
      apply py_range_In. unfold f.
      pose proof (Z.mod_pos_bound (a ^ Z.of_nat i) n ltac:(lia)).
      assert (a ^ Z.of_nat i mod n <> 0); [|lia].
      intros Hz. apply Z.mod_divide in Hz; [|lia].
      assert (Hone : (n | 1)).
      { apply (cancel_coprime_power a n 1 i); [now rewrite Z.gcd_comm|].
        now rewrite Z.mul_1_r. }
      apply Z.divide_1_r_nonneg in Hone; lia. }
    pose proof (NoDup_incl_length Hnd Hincl) as Hlen.
    unfold l in Hlen.
    rewrite length_map, length_seq, py_range_length in Hlen. lia. }
  destruct (repeated_entry l Hdup) as (i & j & Hij & E).
  unfold l in Hij, E. rewrite length_map, length_seq in Hij.
  assert (Hnth : forall k, (k < Z.to_nat n)%nat ->
                           nth k (map f (seq 0 (Z.to_nat n))) 0 = f k).
  { intros k Hk.
    rewrite (nth_indep _ 0 (f 0%nat)) by (rewrite length_map, length_seq; lia).
    rewrite map_nth, seq_nth by lia. reflexivity. }
  rewrite !Hnth in E by lia. unfold f in E.
  exists (Z.of_nat (j - i)). split; [lia|].
  assert (Hdiv : (n | a ^ Z.of_nat (j - i) - 1)).
  { apply (cancel_coprime_power a n _ i); [now rewrite Z.gcd_comm|].
    replace (a ^ Z.of_nat i * (a ^ Z.of_nat (j - i) - 1))
      with (a ^ Z.of_nat j - a ^ Z.of_nat i).
    - apply Z.mod_divide; [lia|].
      rewrite Zminus_mod, E, Z.sub_diag. apply Z.mod_0_l. lia.
    - rewrite Z.mul_sub_distr_l, <- Z.pow_add_r by lia.
      replace (Z.of_nat i + Z.of_nat (j - i)) with (Z.of_nat j) by lia. ring. }
  destruct Hdiv as (q & Hq).
  replace (a ^ Z.of_nat (j - i)) with (1 + q * n) by lia.
  rewrite Z.mod_add by lia. apply Z.mod_small. lia.
Qed.

(** X5: a bound of n - 1 always suffices.  For n >= 2 and a base coprime
    to n, [find_order] with the default bound, or with any bound of at
    least n - 1, returns an order, and that order is at most n - 1. *)
Theorem find_order_coprime_found (a n : Z) (max_order : option Z) :
  2 <= n -> Z.gcd a n = 1 -> n - 1 <= bound_of n max_order ->
  exists r, 1 <= r <= n - 1 /\ find_order a n max_order = Ret (Some r).
Proof.
  intros Hn Hg Hb.
  destruct (order_exists_below a n Hn Hg) as (r0 & Hr0 & Hpow0).
  unfold find_order.
  destruct (find_order_run_spec a n max_order ltac:(lia))
    as [(r & Hr & Hpow & Hmin & ->) | (Hnone & _)].
  - exists r. split; [|reflexivity].
    destruct (Z.le_gt_cases r r0) as [|Hgt]; [lia|].
    exfalso. apply (Hmin r0); [lia | exact Hpow0].
  - exfalso. apply (Hnone r0); [lia | exact Hpow0].
Qed.

Lemma find_order_coprime_found_witness :
  exists r, 1 <= r <= 7 - 1 /\ find_order 3 7 (Some 6) = Ret (Some r).
Proof.
  apply (find_order_coprime_found 3 7 (Some 6)); [lia | reflexivity|].
  cbn [bound_of]. lia.
Defined.

(** X6: the bound only truncates.  If [find_order] returns r with some
    bound, then with any other bound b it returns r when r <= b and None
    when b < r. *)
Theorem find_order_truncates (a n b2 r b : Z) :
  find_order a n (Some b2) = Ret (Some r) ->
  find_order a n (Some b) = Ret (if r <=? b then Some r else None).
Proof.
  intros E.
  destruct (find_order_found_modulus a n (Some b2) r E)
    as (Hn & Hr & Hpow & Hmin & _).
  unfold find_order.
  destruct (find_order_run_spec a n (Some b) ltac:(lia))
    as [(r' & Hr' & Hpow' & Hmin' & ->) | (Hnone & ->)];
    cbn [fst bound_of] in *.
  - assert (r' = r).
    { destruct (Z.lt_trichotomy r r') as [Hlt | [Heq | Hgt]]; [|auto|].
      - exfalso. apply (Hmin' r); [lia | exact Hpow].
      - exfalso. apply (Hmin r'); [lia | exact Hpow']. }
    subst r'. destruct (Z.leb_spec r b); [reflexivity | lia].
  - destruct (Z.leb_spec r b) as [Hle|]; [|reflexivity].
    exfalso. apply (Hnone r); [lia | exact Hpow].
Qed.

Lemma find_order_truncates_witness :
  find_order 2 15 (Some 3) = Ret None /\
  find_order 2 15 (Some 100) = Ret (Some 4).
Proof.
  split.
  - apply (find_order_truncates 2 15 10 4 3). reflexivity.
  - apply (find_order_truncates 2 15 10 4 100). reflexivity.
Defined.

(** X7: the scan stops at the order.  A call that returns r has run
    exactly r iterations; a call on a nonzero modulus that returns None
    has run the whole range, max(0, bound) iterations. *)
Theorem find_order_iteration_count (a n : Z) (max_order : option Z) :
  (forall r, find_order a n max_order = Ret (Some r) ->
             Z.of_nat (find_order_iterations a n max_order) = r) /\
  (n <> 0 -> find_order a n max_order = Ret None ->
   Z.of_nat (find_order_iterations a n max_order)
   = Z.max 0 (bound_of n max_order)).
Proof.
  split.
  - intros r E.
    destruct (find_order_found_modulus a n max_order r E)
      as (_ & Hr & _ & _ & ->). lia.
  - intros Hn E. unfold find_order, find_order_iterations in *.
    destruct (find_order_run_spec a n max_order Hn)
      as [(r & _ & _ & _ & Heq) | (_ & Heq)];
      rewrite Heq in *; cbn [fst snd] in *; [discriminate E | lia].
Qed.

Lemma find_order_iteration_count_witness :
  Z.of_nat (find_order_iterations 2 15 None) = 4 /\
  Z.of_nat (find_order_iterations 3 15 (Some 6)) = Z.max 0 6.
Proof.
  destruct (find_order_iteration_count 2 15 None) as (Hsome & _).
  destruct (find_order_iteration_count 3 15 (Some 6)) as (_ & Hnone).
  split.
  - apply Hsome. reflexivity.
  - apply Hnone; [lia | reflexivity].
Defined.

(** * Further properties of the Factor Engine *)

Lemma divisor_product (n f : Z) : f <> 0 -> (f | n) -> f * (n / f) = n.
Proof.
  intros Hf (c & ->). rewrite Z.div_mul by assumption. ring.
Qed.

Section MoreResults.

Context {float_ops : FloatOps}.

Lemma shors_body_product (retry : Z -> bool -> M (option (Z * Z))) (n : Z) :
  (forall w p q, fst (retry n false w) = Ret (Some (p, q)) -> p * q = n) ->
  forall verbose w p q,
    fst (shors_body retry n verbose w) = Ret (Some (p, q)) -> p * q = n.
Proof.
  intros Hretry verbose w p q E.
  pose proof (shors_body_exit retry n verbose w) as Hexit.
  rewrite E in Hexit.
  inversion Hexit as
    [w' Heven _
    | | |k a w' _ Hk Ha Hpow _
    | |new a w' Hodd _ _ _ Hg _
    | |factor new a r w' Hodd _ _ _ Hfactor Hf
    |new a r w1 _ _ _ _ _ Hfst
    |]; subst.
  - apply divisor_product; [lia|]. apply Z.mod_divide; [lia | exact Heven].
  - replace k with (Z.succ (k - 1)) at 2 by lia.
    now rewrite Z.pow_succ_r by lia.
  - apply divisor_product; [|apply Z.gcd_divide_r].
    intros E0. apply Z.gcd_eq_0_r in E0. subst n. now apply Hodd.
  - apply divisor_product; [lia|].
    destruct Hfactor as [-> | ->]; apply Z.gcd_divide_r.
  - now apply (Hretry w1).
Qed.

End MoreResults.

(** X8: every returned pair multiplies to n, for every integer n, the
    inputs outside the intended domain (n <= 2, zero, negative) included. *)
Theorem returned_pair_multiplies (F : FloatOps) (depth : nat) (n : Z)
    (verbose : bool) (w : world) (p q : Z) :
  result_of (shors_algorithm depth n verbose w) = Ret (Some (p, q)) ->
  p * q = n.
Proof.
  unfold result_of. revert verbose w p q.
  induction depth as [|depth IH]; intros verbose w p q;
    cbn [shors_algorithm]; apply shors_body_product.
  - intros w0 p0 q0 E. discriminate E.
  - intros w0 p0 q0. apply IH.
Qed.

Lemma returned_pair_multiplies_witness :
  result_of (shors_algorithm (float_ops := ideal_float) 0 (-6) false
               (fresh_world (fun _ => 0))) = Ret (Some (2, -3)) /\
  2 * -3 = -6.
Proof.
  assert (Hrun : result_of (shors_algorithm (float_ops := ideal_float) 0 (-6)
                              false (fresh_world (fun _ => 0)))
                 = Ret (Some (2, -3))) by (vm_compute; reflexivity).
  split; [exact Hrun|].
  exact (returned_pair_multiplies ideal_float 0 (-6) false
           (fresh_world (fun _ => 0)) 2 (-3) Hrun).
Defined.

(** X9: the even check validates nothing.  For every even n, zero and the
    negative ones included, a call that can narrate n (verbose is off, or
    n has at most 4300 digits) returns (2, n // 2) without a draw; with
    verbose on and a longer n the header line raises [ValueError], without
    a draw either.  The pair (2, n // 2) is a pair of nontrivial factors
    exactly when n >= 4. *)
Theorem even_input_unvalidated (F : FloatOps) (depth : nat) (n : Z)
    (verbose : bool) (w : world) :
  n mod 2 = 0 ->
  (verbose = false \/ printable n ->
   exists w',
     shors_algorithm depth n verbose w = (Ret (Some (2, n / 2)), w') /\
     cursor w' = cursor w /\ drawn w' = drawn w) /\
  (verbose = true -> ~ printable n ->
   exists w',
     shors_algorithm depth n verbose w = (Raise ValueError, w') /\
     cursor w' = cursor w /\ drawn w' = drawn w) /\
  (nontrivial_pair n 2 (n / 2) <-> 4 <= n).
Proof.
  intros Heven. split; [|split].
  - intros Hok.
    destruct (shors_algorithm_even depth n verbose w Heven Hok)
      as (w' & E & _ & Hc & Hd).
    exists w'. split; [exact E|].
    cbn in Hc, Hd. rewrite app_nil_r in Hd. rewrite Nat.add_0_r in Hc. auto.
  - intros -> Hbad.
    destruct (shors_algorithm_header_refuses depth n w Hbad)
      as (w' & E & _ & Hc & Hd).
    exists w'. split; [exact E|].
    cbn in Hc, Hd. rewrite app_nil_r in Hd. rewrite Nat.add_0_r in Hc. auto.
  - split.
    + intros (_ & Hp & Hq).
      destruct (Z.eq_dec n 3) as [->|]; [discriminate Heven | lia].
    + intros Hn. apply even_pair; [lia | exact Heven].
Qed.

Lemma even_input_unvalidated_witness :
  (exists w',
      shors_algorithm (float_ops := ideal_float) 0 0 true
        (fresh_world (fun _ => 0)) = (Ret (Some (2, 0 / 2)), w') /\
      cursor w' = 0%nat /\ drawn w' = []) /\
  (exists w',
      shors_algorithm (float_ops := ideal_float) 0 (-2 * str_bound) true
        (fresh_world (fun _ => 0)) = (Raise ValueError, w') /\
      cursor w' = 0%nat /\ drawn w' = []).
Proof.
  split.
  - apply (proj1 (even_input_unvalidated ideal_float 0 0 true
                    (fresh_world (fun _ => 0)) eq_refl)).
    right. apply printable_small. apply Z.leb_le. reflexivity.
  - assert (Heven : (-2 * str_bound) mod 2 = 0).
    { replace (-2 * str_bound) with (- str_bound * 2) by ring.
      apply Z.mod_mul. lia. }
    apply (proj1 (proj2 (even_input_unvalidated ideal_float 0
                           (-2 * str_bound) true
                           (fresh_world (fun _ => 0)) Heven))).
    + reflexivity.
    + unfold printable. pose proof ten_printable. lia.
Defined.

(** ** The reduction from order to factor *)

Lemma even_order_gives_factor (a n r : Z) :
  find_order a n None = Ret (Some r) ->
  r mod 2 <> 1 -> a ^ (r / 2) mod n <> n - 1 ->
  1 < Z.gcd (a ^ (r / 2) mod n - 1) n < n.
Proof.
  intros E Heven Hminus.
  destruct (find_order_found_modulus a n None r E)
    as (Hn & Hr & Hpow & Hmin & _).
  assert (Hr2 : r = 2 * (r / 2)).
  { pose proof (Z.div_mod r 2 ltac:(lia)).
    pose proof (Z.mod_pos_bound r 2 ltac:(lia)). lia. }
  set (h := r / 2) in *. set (x := a ^ h mod n).
  assert (Hx : 0 <= x < n) by (apply Z.mod_pos_bound; lia).
  assert (Hx1 : x <> 1) by (apply Hmin; lia).
  assert (Hsq : (n | (x - 1) * (x + 1))).
  { apply Z.mod_divide; [lia|].
    replace ((x - 1) * (x + 1)) with (x * x - 1) by ring.
    rewrite Zminus_mod. unfold x. rewrite <- Z.mul_mod by lia.
    rewrite <- Z.pow_add_r by lia.
    replace (h + h) with r by lia. rewrite Hpow.
    rewrite (Z.mod_small 1 n) by lia. apply Z.mod_0_l. lia. }
  pose proof (Z.gcd_nonneg (x - 1) n) as Hnn.
  pose proof (Z.gcd_divide_l (x - 1) n) as Hdl.
  pose proof (Z.gcd_divide_r (x - 1) n) as Hdr.
  assert (Hle : Z.gcd (x - 1) n <= n) by (apply Z.divide_pos_le; [lia | exact Hdr]).
  assert (Hnz : Z.gcd (x - 1) n <> 0).
  { intros E0. apply Z.gcd_eq_0_r in E0. lia. }
  assert (Hnn' : Z.gcd (x - 1) n <> n).
  { intros En. rewrite En in Hdl. destruct Hdl as (c & Hc).
    assert (Hcases : c <= -1 \/ c = 0 \/ 1 <= c) by lia.
    destruct Hcases as [Hc' | [-> | Hc']]; nia. }
  assert (Hn1 : Z.gcd (x - 1) n <> 1).
  { intros E1. rewrite Z.gcd_comm in E1.
    pose proof (Z.gauss n (x - 1) (x + 1) Hsq E1) as (c & Hc).
    assert (Hcases : c <= 0 \/ c = 1 \/ 2 <= c) by lia.
    destruct Hcases as [Hc' | [-> | Hc']]; nia. }
  lia.
Qed.

(** The branch that returns the first candidate, when the narration can
    be printed. *)
Lemma use_period_first_factor (retry : Z -> bool -> M (option (Z * Z)))
    (n : Z) (verbose : bool) (a r : Z) (w : world) :
  find_order a n None = Ret (Some r) ->
  r mod 2 <> 1 -> a ^ (r / 2) mod n <> n - 1 ->
  verbose = false \/ (printable a /\ printable n) ->
  exists w1,
    use_period retry n verbose a w
    = (Ret (Some (Z.gcd (a ^ (r / 2) mod n - 1) n,
                  n / Z.gcd (a ^ (r / 2) mod n - 1) n)), w1) /\
    extends w w1 [].
Proof.
  intros Er Heven Hminus Hok.
  pose proof (even_order_gives_factor a n r Er Heven Hminus) as Hf.
  destruct (period_bounds a n r Er) as (Hn & Hr & Hx & _ & Hf2).
  unfold use_period.
  set (x := a ^ (r / 2) mod n) in *.
  pose proof (cofactor_bounds n (Z.gcd (x - 1) n) ltac:(lia) ltac:(lia))
    as Hq.
  assert (Hsay : forall lines,
             Forall (fun z => z = a \/ Z.abs z <= n) (flat_map numbers lines) ->
             verbose = false \/ Forall printable (flat_map numbers lines)).
  { intros lines Hall. destruct Hok as [Hv | (Hpa & Hpn)]; [now left|].
    right. eapply Forall_impl; [|exact Hall].
    intros z [-> | Hz]; [exact Hpa|].
    apply (printable_below _ n); [lia | exact Hpn]. }
  period_step Hsay. rewrite bind_lift, Er. period_step Hsay.
  rewrite (proj2 (Z.eqb_neq _ _) Heven). period_step Hsay.
  cbv zeta. fold x. period_step Hsay.
  rewrite (proj2 (Z.eqb_neq _ _) Hminus). period_step Hsay. period_step Hsay.
  rewrite (proj2 (Z.ltb_lt _ _) (proj1 Hf)).
  rewrite (proj2 (Z.ltb_lt _ _) (proj2 Hf)). cbn [andb]. period_step Hsay.
  eexists. split; [reflexivity | chain].
Qed.

(** X10: the reduction always succeeds on an even order.  If [find_order]
    returns an even r for the base a and x = a^(r/2) mod n is not n - 1,
    then gcd(x - 1, n) is a nontrivial factor and the call returns
    (gcd(x - 1, n), n // gcd(x - 1, n)) without recursion, unless its
    narration raised on the way (verbose on, and a or n of more than 4300
    digits).  Hence a call starts over only on an odd order or on
    x = n - 1: the second candidate gcd(x + 1, n) is never returned and
    the retry for two trivial candidates is never taken. *)
Theorem even_order_factors (retry : Z -> bool -> M (option (Z * Z)))
    (n : Z) (verbose : bool) (a r : Z) (w : world) :
  find_order a n None = Ret (Some r) ->
  (r mod 2 <> 1 -> a ^ (r / 2) mod n <> n - 1 ->
   1 < Z.gcd (a ^ (r / 2) mod n - 1) n < n /\
   exists w1,
     extends w w1 [] /\
     (use_period retry n verbose a w
      = (Ret (Some (Z.gcd (a ^ (r / 2) mod n - 1) n,
                    n / Z.gcd (a ^ (r / 2) mod n - 1) n)), w1)
      \/ (verbose = true /\ ~ (printable a /\ printable n) /\
          use_period retry n verbose a w = (Raise ValueError, w1)))) /\
  (starts_over n a r <-> r mod 2 = 1 \/ a ^ (r / 2) mod n = n - 1).
Proof.
  intros E. split.
  - intros Heven Hminus.
    split; [exact (even_order_gives_factor a n r E Heven Hminus)|].
    assert (Hcases : verbose = false \/ (printable a /\ printable n)
                     \/ (verbose = true /\ ~ (printable a /\ printable n))).
    { destruct verbose; [|now left].
      destruct (printable_dec a) as [Ha|Ha], (printable_dec n) as [Hn|Hn];
        tauto. }
    destruct Hcases as [Hq | [Hp | (Hv & Hbad)]].
    + destruct (use_period_first_factor retry n verbose a r w E Heven Hminus
                  (or_introl Hq)) as (w1 & Erun & Hext).
      exists w1. auto.
    + destruct (use_period_first_factor retry n verbose a r w E Heven Hminus
                  (or_intror Hp)) as (w1 & Erun & Hext).
      exists w1. auto.
    + subst verbose.
      destruct (use_period_refuses retry n a r w E Hbad) as (w1 & Hext & Erun).
      exists w1. split; [exact Hext|]. right. auto.
  - unfold starts_over. cbv zeta. split; [|tauto].
    intros [Hodd | [Hminus | (Hf1 & _)]]; [tauto | tauto |].
    destruct (Z.eq_dec (r mod 2) 1) as [|Heven]; [tauto|].
    destruct (Z.eq_dec (a ^ (r / 2) mod n) (n - 1)) as [|Hminus]; [tauto|].
    exfalso. apply Hf1. exact (even_order_gives_factor a n r E Heven Hminus).
Qed.

Lemma even_order_factors_witness :
  1 < Z.gcd (2 ^ (6 / 2) mod 21 - 1) 21 < 21 /\
  exists w1,
    extends (fresh_world (fun _ => 0)) w1 [] /\
    (use_period (shors_algorithm (float_ops := ideal_float) 0) 21 true 2
       (fresh_world (fun _ => 0))
     = (Ret (Some (Z.gcd (2 ^ (6 / 2) mod 21 - 1) 21,
                   21 / Z.gcd (2 ^ (6 / 2) mod 21 - 1) 21)), w1)
     \/ (true = true /\ ~ (printable 2 /\ printable 21) /\
         use_period (shors_algorithm (float_ops := ideal_float) 0) 21 true 2
           (fresh_world (fun _ => 0)) = (Raise ValueError, w1))).
Proof.
  apply (proj1 (even_order_factors
                  (shors_algorithm (float_ops := ideal_float) 0) 21 true 2 6
                  (fresh_world (fun _ => 0)) eq_refl)).
  - vm_compute. discriminate.
  - vm_compute. discriminate.
Defined.

(** ** Prime inputs *)

Lemma prime_no_pair (n p q : Z) : Z.prime n -> ~ nontrivial_pair n p q.
Proof.
  intros (_ & Hprime) (Hpq & Hp & _).
  apply (Hprime p Hp). exists q. lia.
Qed.

Section PrimeInput.

Context {float_ops : FloatOps}.
Variable n : Z.
Hypothesis n_prime : Z.prime n.
Hypothesis n_above_two : 2 < n.

Lemma shors_algorithm_prime_raises (depth : nat) (verbose : bool)
    (w : world) :
  exists e, fst (shors_algorithm depth n verbose w) = Raise e.
Proof.
  destruct (fst (shors_algorithm depth n verbose w)) as [[[p q]|]|e] eqn:E.
  - exfalso. apply (prime_no_pair n p q n_prime).
    exact (shors_algorithm_pairs n n_above_two depth verbose w p q E).
  - exfalso. exact (shors_algorithm_not_none n depth verbose w E).
  - exists e. reflexivity.
Qed.

Variable top : Z.
Hypothesis log2_returns : log2_int n = Ret top.
Hypothesis roots_return : forall k, 2 <= k -> exists b, root_round n k = Ret b.

(** A root of n was computed, so that n has a double. *)
Lemma prime_printable : printable n.
Proof.
  destruct (roots_return 2 ltac:(lia)) as (b & Hb).
  apply (rooted_printable n 2 b); [lia | exact Hb].
Qed.

(** One quiet call on a prime: ten draws, then the retry. *)
Lemma shors_body_prime (retry : Z -> bool -> M (option (Z * Z)))
    (budget : Z) :
  (forall w, exists new,
      extends w (snd (retry n false w)) new /\
      Z.of_nat (List.length new) = budget /\
      fst (retry n false w) = Raise RecursionError) ->
  forall w, exists new,
    extends w (snd (shors_body retry n false w)) new /\
    Z.of_nat (List.length new) = max_attempts + budget /\
    fst (shors_body retry n false w) = Raise RecursionError.
Proof.
  intros Hretry w.
  pose proof (shors_body_exit retry n false w) as Hexit.
  set (o := fst (shors_body retry n false w)) in *.
  set (w' := snd (shors_body retry n false w)) in *.
  clearbody o w'.
  destruct Hexit as
    [w' Heven _
    |e w' _ Hlog _
    |k e w' _ Hk Hroot _
    |k a w' _ Hk Ha Hpow _
    |w' _ Hlt _
    |new a w' _ _ Hrange Hin Hg _
    |new a w' _ Hex _ Hnone
    |factor new a r w' _ _ _ _ Hfactor Hf
    |new a r w1 _ Hex Hext _ _
    |new w' Hv _ _ _].
  - exfalso. apply (prime_no_pair n 2 (n / 2) n_prime).
    now apply even_pair.
  - congruence.
  - destruct (roots_return k Hk) as (b & Hb). congruence.
  - exfalso. apply (prime_no_pair n a (a ^ (k - 1)) n_prime).
    now apply power_pair.
  - lia.
  - exfalso. apply (prime_no_pair n _ _ n_prime (shared_factor_pair n a
      ltac:(rewrite Forall_forall in Hrange; now apply Hrange) Hg)).
  - exfalso. destruct (exhausted_base _ _ _ Hex) as (Ha & Hg).
    destruct (find_order_default_finds a n ltac:(lia) Hg) as (r & Hr).
    congruence.
  - exfalso. apply (prime_no_pair n factor (n / factor) n_prime).
    apply divisor_pair; [|exact Hf].
    destruct Hfactor as [-> | ->]; apply Z.gcd_divide_r.
  - destruct (Hretry w1) as (new2 & Hext2 & Hlen2 & Hres).
    destruct Hex as (Hlen & _ & _).
    exists (new ++ new2).
    split; [exact (extends_trans _ _ _ _ _ Hext Hext2)|].
    split; [rewrite length_app; lia | exact Hres].
  - discriminate Hv.
Qed.

Lemma shors_algorithm_prime_quiet :
  forall depth w, exists new,
    extends w (snd (shors_algorithm depth n false w)) new /\
    Z.of_nat (List.length new) = max_attempts * Z.of_nat (S depth) /\
    fst (shors_algorithm depth n false w) = Raise RecursionError.
Proof.
  induction depth as [|depth IH]; intros w; cbn [shors_algorithm].
  - destruct (shors_body_prime (fun _ _ => raise RecursionError) 0)
      with (w := w) as (new & Hext & Hlen & Hres).
    { intros w0. exists []. split; [apply extends_refl|].
      split; reflexivity. }
    exists new. split; [exact Hext|]. split; [lia | exact Hres].
  - destruct (shors_body_prime (shors_algorithm depth)
                (max_attempts * Z.of_nat (S depth)))
      with (w := w) as (new & Hext & Hlen & Hres).
    { intros w0. apply IH. }
    exists new. split; [exact Hext|]. split; [lia | exact Hres].
Qed.

(** The verbose call makes the draws of the quiet one: n is printable, and
    so is everything it narrates. *)
Lemma shors_algorithm_prime_exhausts (depth : nat) (verbose : bool)
    (w : world) :
  fst (shors_algorithm depth n verbose w) = Raise RecursionError /\
  Z.of_nat (draws_made w (snd (shors_algorithm depth n verbose w)))
  = max_attempts * Z.of_nat (S depth).
Proof.
  destruct (shors_algorithm_prime_quiet depth w)
    as (new & (_ & Hc & _) & Hlen & Hres).
  destruct (related_shors_algorithm same_rng same_rng_quiet same_rng_randint
              n depth verbose false (or_intror prime_printable) w w
              (same_rng_refl w)) as (Hfst & _ & Hcur & _).
  rewrite Hfst. split; [exact Hres|].
  unfold draws_made. rewrite Hcur, Hc. lia.
Qed.

End PrimeInput.

(** X11: a prime input never yields a result.  For a prime n > 2 every
    call ends in an exception; when the two floating-point steps raise
    nothing at n, every attempt starts over, and the call ends in
    [RecursionError] after exactly 10 draws per nesting level,
    10 * (depth + 1) in all. *)
Theorem prime_input_exhausts (F : FloatOps) (n : Z) (depth : nat)
    (verbose : bool) (w : world) :
  Z.prime n -> 2 < n ->
  (exists e, result_of (shors_algorithm depth n verbose w) = Raise e) /\
  (forall top,
      log2_int n = Ret top ->
      (forall k, 2 <= k -> exists b, root_round n k = Ret b) ->
      result_of (shors_algorithm depth n verbose w) = Raise RecursionError /\
      Z.of_nat (draws_made w (snd (shors_algorithm depth n verbose w)))
      = 10 * (Z.of_nat depth + 1)).
Proof.
  intros Hprime Hn. split.
  - exact (shors_algorithm_prime_raises n Hprime Hn depth verbose w).
  - intros top Hlog Hroots.
    destruct (shors_algorithm_prime_exhausts n Hprime Hn top Hlog Hroots
                depth verbose w) as (Hres & Hdraws).
    split; [exact Hres|].
    unfold max_attempts in *. lia.
Qed.

Lemma prime_input_exhausts_witness :
  result_of (shors_algorithm (float_ops := ideal_float) 2 3 true
               (fresh_world (fun i => Z.of_nat i))) = Raise RecursionError /\
  Z.of_nat (draws_made (fresh_world (fun i => Z.of_nat i))
              (snd (shors_algorithm (float_ops := ideal_float) 2 3 true
                      (fresh_world (fun i => Z.of_nat i)))))
  = 10 * (Z.of_nat 2 + 1).
Proof.
  apply (proj2 (prime_input_exhausts ideal_float 3 2 true
                  (fresh_world (fun i => Z.of_nat i)) Z.prime_3 ltac:(lia)) 1).
  - reflexivity.
  - intros k _. eexists. reflexivity.
Defined.

(** ** Quiet calls *)

Lemma bind_keeps_stdout {A B} (m : M A) (k : A -> M B) :
  (forall w, stdout (snd (m w)) = stdout w) ->
  (forall x w, stdout (snd (k x w)) = stdout w) ->
  forall w, stdout (snd (bind m k w)) = stdout w.
Proof.
  intros Hm Hk w. unfold bind. specialize (Hm w).
  destruct (m w) as [[x|e] w1]; cbn [snd] in *; [|exact Hm].
  now rewrite Hk.
Qed.

Lemma randint_keeps_stdout (lo hi : Z) (w : world) :
  stdout (snd (randint lo hi w)) = stdout w.
Proof. unfold randint. destruct (hi <? lo); reflexivity. Qed.

Section Quiet.

Context {float_ops : FloatOps}.

Lemma perfect_power_loop_quiet (n : Z) (ks : list Z) (w : world) :
  stdout (snd (perfect_power_loop n false ks w)) = stdout w.
Proof.
  induction ks as [|k ks IH]; [reflexivity|].
  cbn [perfect_power_loop]. rewrite bind_lift.
  destruct (root_round n k) as [root|e]; [|reflexivity].
  cbv zeta. destruct (Z.of_N root ^ k =? n); [|exact IH].
  now rewrite bind_say_false.
Qed.

Lemma sampling_loop_quiet (n : Z) (attempts : list Z) :
  forall (a0 : Z) (w : world),
    stdout (snd (sampling_loop n false attempts a0 w)) = stdout w.
Proof.
  induction attempts as [|attempt rest IH]; intros a0; [reflexivity|].
  cbn [sampling_loop]. apply bind_keeps_stdout.
  - apply randint_keeps_stdout.
  - intros a w. cbv zeta. rewrite bind_say_false.
    destruct (negb (Z.gcd a n =? 1)); [|apply IH].
    now rewrite bind_say_false.
Qed.

Lemma use_period_quiet (retry : Z -> bool -> M (option (Z * Z))) (n a : Z) :
  (forall w, stdout (snd (retry n false w)) = stdout w) ->
  forall w, stdout (snd (use_period retry n false a w)) = stdout w.
Proof.
  intros Hretry w. unfold use_period.
  rewrite bind_say_false, bind_lift.
  destruct (find_order a n None) as [[r|]|e]; [| |reflexivity].
  - rewrite bind_say_false.
    destruct (r mod 2 =? 1); [now rewrite bind_say_false|].
    rewrite bind_say_false. cbv zeta. rewrite bind_say_false.
    destruct (a ^ (r / 2) mod n =? n - 1); [now rewrite bind_say_false|].
    rewrite !bind_say_false.
    destruct ((1 <? Z.gcd (a ^ (r / 2) mod n - 1) n)
              && (Z.gcd (a ^ (r / 2) mod n - 1) n <? n));
      [now rewrite bind_say_false|].
    destruct ((1 <? Z.gcd (a ^ (r / 2) mod n + 1) n)
              && (Z.gcd (a ^ (r / 2) mod n + 1) n <? n));
      now rewrite bind_say_false.
  - now rewrite bind_say_false.
Qed.

Lemma shors_body_quiet (retry : Z -> bool -> M (option (Z * Z))) (n : Z) :
  (forall w, stdout (snd (retry n false w)) = stdout w) ->
  forall w, stdout (snd (shors_body retry n false w)) = stdout w.
Proof.
  intros Hretry w. unfold shors_body. rewrite bind_say_false.
  destruct (n mod 2 =? 0); [now rewrite bind_say_false|].
  rewrite bind_say_false, bind_lift.
  destruct (log2_int n) as [top|e]; [|reflexivity].
  revert w. apply bind_keeps_stdout; [intros w; apply perfect_power_loop_quiet|].
  intros [factors|[]] w; [reflexivity|].
  rewrite bind_say_false. revert w.
  apply bind_keeps_stdout; [intros w; apply sampling_loop_quiet|].
  intros [factors|a] w; [reflexivity|].
  now apply use_period_quiet.
Qed.

End Quiet.

(** X12: a quiet call prints nothing.  With verbose off the call leaves
    the standard output as it found it, whatever the number of nested
    retries and however it ends. *)
Theorem quiet_call_prints_nothing (F : FloatOps) (depth : nat) (n : Z)
    (w : world) :
  stdout (snd (shors_algorithm depth n false w)) = stdout w.
Proof.
  revert w. induction depth as [|depth IH]; intros w; cbn [shors_algorithm];
    apply shors_body_quiet.
  - reflexivity.
  - exact IH.
Qed.

(** ** Inputs below the domain *)

(** X13: an odd n <= 1 ends in an exception before any draw.  If the
    logarithm raises, that exception is the result; if it returns (less
    than 2, so that no exponent is tested), [random.randint(2, n - 1)]
    has an empty range and the call raises [ValueError].  No value is
    returned and nothing is retried. *)
Theorem odd_input_below_domain (F : FloatOps) (depth : nat) (n : Z)
    (verbose : bool) (w : world) :
  n mod 2 = 1 -> n <= 1 ->
  (forall top, log2_int n = Ret top -> top < 2) ->
  exists w',
    extends w w' [] /\
    (shors_algorithm depth n verbose w = (Raise ValueError, w')
     \/ exists e, log2_int n = Raise e /\
                  shors_algorithm depth n verbose w = (Raise e, w')).
Proof.
  intros Hodd Hn Htop.
  assert (Hbody : forall retry, exists w',
             extends w w' [] /\
             (shors_body retry n verbose w = (Raise ValueError, w')
              \/ exists e, log2_int n = Raise e /\
                           shors_body retry n verbose w = (Raise e, w'))).
  { intros retry. unfold shors_body.
    step_say_with ltac:(fun w' H Hv Hbad =>
      exists w'; split; [exact H | left; reflexivity]).
    rewrite Hodd. change (1 =? 0) with false. cbv iota.
    step_say_ok ltac:(narrated ltac:(idtac)). rewrite bind_lift.
    destruct (log2_int n) as [top|e] eqn:Elog.
    - rewrite (py_range_nil 2 (top + 1)) by (specialize (Htop top eq_refl); lia).
      cbn [perfect_power_loop]. rewrite bind_ret.
      step_say_ok ltac:(narrated ltac:(idtac)).
      unfold max_attempts. rewrite (py_range_cons 0 10) by lia.
      cbn [sampling_loop].
      destruct (randint_run 2 (n - 1) w2) as [(_ & Er) | (a & _ & Ha & _)];
        [|lia].
      rewrite (bind_raises _ _ _ _ _ (bind_raises _ _ _ _ _ Er)).
      exists w2. split; [chain | now left].
    - exists w1. split; [chain|]. right. exists e. auto. }
  destruct depth; cbn [shors_algorithm]; apply Hbody.
Qed.

Lemma odd_input_below_domain_witness :
  (exists w',
      extends (fresh_world (fun _ => 0)) w' [] /\
      (shors_algorithm (float_ops := ideal_float) 5 1 true
         (fresh_world (fun _ => 0)) = (Raise ValueError, w')
       \/ exists e, @log2_int ideal_float 1 = Raise e /\
                    shors_algorithm (float_ops := ideal_float) 5 1 true
                      (fresh_world (fun _ => 0)) = (Raise e, w'))) /\
  (exists w',
      extends (fresh_world (fun _ => 0)) w' [] /\
      (shors_algorithm (float_ops := ideal_float) 5 (-3) true
         (fresh_world (fun _ => 0)) = (Raise ValueError, w')
       \/ exists e, @log2_int ideal_float (-3) = Raise e /\
                    shors_algorithm (float_ops := ideal_float) 5 (-3) true
                      (fresh_world (fun _ => 0)) = (Raise e, w'))).
Proof.
  split.
  - apply (odd_input_below_domain ideal_float 5 1 true
             (fresh_world (fun _ => 0))); [reflexivity | lia|].
    intros top E. vm_compute in E. injection E as <-. reflexivity.
  - apply (odd_input_below_domain ideal_float 5 (-3) true
             (fresh_world (fun _ => 0))); [reflexivity | lia|].
    intros top E. discriminate E.
Defined.

(** ** The sampling loop, draw by draw *)

(** X14: the sampling loop stops at the first draw that shares a factor
    with n.  When the loop returns a pair (g, q), the draws it made are
    some draws coprime to n, fewer than 10, followed by one draw a with
    gcd(a, n) <> 1; g is gcd(a, n), q is n // g, and (g, q) is a pair of
    nontrivial factors of n. *)
Theorem sampling_stops_at_shared_factor (n : Z) (verbose : bool) (a0 : Z)
    (w w' : world) (g q : Z) :
  sampling_loop n verbose (py_range 0 max_attempts) a0 w
  = (Ret (Returned (g, q)), w') ->
  exists pre a,
    drawn w' = drawn w ++ pre ++ [a] /\
    Z.of_nat (List.length pre) < max_attempts /\
    Forall (fun d => 2 <= d <= n - 1 /\ Z.gcd d n = 1) pre /\
    2 <= a <= n - 1 /\ Z.gcd a n <> 1 /\
    g = Z.gcd a n /\ q = n / g /\ nontrivial_pair n g q.
Proof.
  intros E.
  destruct (sampling_loop_run n verbose (py_range 0 max_attempts) a0 w)
    as (new & w1 & (_ & _ & Hd) & Hrange & _ &
        [(_ & _ & E') | [(pre & a & -> & Hlen & Hpre & Hg & E')
                        | [(_ & _ & E') | (_ & E')]]]);
    rewrite E in E'; try discriminate E'.
  injection E' as -> -> ->.
  rewrite py_range_length in Hlen.
  apply Forall_app in Hrange. destruct Hrange as (Hrpre & Hra).
  assert (Ha : 2 <= a <= n - 1) by now inversion Hra.
  exists pre, a. split; [exact Hd|].
  split; [unfold max_attempts in *; lia|].
  split.
  { apply Forall_forall. intros d Hin.
    rewrite Forall_forall in Hrpre, Hpre. auto. }
  split; [exact Ha|]. split; [exact Hg|].
  split; [reflexivity|]. split; [reflexivity|].
  now apply shared_factor_pair.
Qed.

Lemma sampling_stops_at_shared_factor_witness :
  exists pre a,
    drawn (snd (sampling_loop 15 true (py_range 0 max_attempts) 0
                  (fresh_world (fun i => Z.of_nat i))))
    = drawn (fresh_world (fun i => Z.of_nat i)) ++ pre ++ [a] /\
    Z.of_nat (List.length pre) < max_attempts /\
    Forall (fun d => 2 <= d <= 15 - 1 /\ Z.gcd d 15 = 1) pre /\
    2 <= a <= 15 - 1 /\ Z.gcd a 15 <> 1 /\
    3 = Z.gcd a 15 /\ 5 = 15 / 3 /\ nontrivial_pair 15 3 5.
Proof.
  apply (sampling_stops_at_shared_factor 15 true 0
           (fresh_world (fun i => Z.of_nat i))).
  vm_compute. reflexivity.
Defined.

(** ** The examples of [main] *)

(** The three [print] calls before an example leave the world of
    [printed] for the banner. *)
Lemma bind_banner {B} (title : string) (k : unit -> M B) (w : world) :
  bind (print (nl ++ bar)%string)
    (fun _ => bind (print title) (fun _ => bind (print bar) k)) w
  = k tt (printed w (banner title)).
Proof.
  assert (E : forall s (k' : unit -> M B) w0,
             bind (print s) k' w0 = k' tt (printed w0 [s])) by reflexivity.
  rewrite !E. f_equal. unfold printed, banner.
  cbn [entropy cursor drawn stdout]. f_equal.
  rewrite <- !app_assoc. reflexivity.
Qed.

(** Tries the values [lo], [lo + 1], ... for [p], [fuel] of them. *)
Ltac try_values p lo fuel :=
  lazymatch fuel with
  | O => idtac
  | S ?fuel' =>
      let H := fresh "Hcase" in
      assert (H : p = lo \/ lo + 1 <= p) by lia;
      destruct H as [-> | H];
      [ first [ exfalso; lia
              | left; apply f_equal2; lia
              | right; apply f_equal2; lia ]
      | let lo' := eval compute in (lo + 1) in try_values p lo' fuel' ]
  end.

Lemma pairs_of_15 (p q : Z) :
  nontrivial_pair 15 p q -> (p, q) = (3, 5) \/ (p, q) = (5, 3).
Proof.
  intros (Hpq & Hp & Hq). try_values p 2 13%nat. lia.
Qed.

Lemma pairs_of_21 (p q : Z) :
  nontrivial_pair 21 p q -> (p, q) = (3, 7) \/ (p, q) = (7, 3).
Proof.
  intros (Hpq & Hp & Hq). try_values p 2 19%nat. lia.
Qed.

Lemma pairs_of_35 (p q : Z) :
  nontrivial_pair 35 p q -> (p, q) = (5, 7) \/ (p, q) = (7, 5).
Proof.
  intros (Hpq & Hp & Hq). try_values p 2 33%nat. lia.
Qed.

Lemma pairs_of_91 (p q : Z) :
  nontrivial_pair 91 p q -> (p, q) = (7, 13) \/ (p, q) = (13, 7).
Proof.
  intros (Hpq & Hp & Hq). try_values p 2 89%nat. lia.
Qed.

Section MainFacts.

Context {float_ops : FloatOps}.

(** A call on n > 2 raises or returns a pair of nontrivial factors. *)
Lemma call_cases (depth : nat) (n : Z) (verbose : bool) (w : world) :
  2 < n ->
  (exists e, fst (shors_algorithm depth n verbose w) = Raise e)
  \/ (exists p q,
        fst (shors_algorithm depth n verbose w) = Ret (Some (p, q)) /\
        nontrivial_pair n p q).
Proof.
  intros Hn.
  destruct (fst (shors_algorithm depth n verbose w)) as [[[p q]|]|e] eqn:E.
  - right. exists p, q. split; [reflexivity|].
    exact (shors_algorithm_pairs n Hn depth verbose w p q E).
  - exfalso. exact (shors_algorithm_not_none n depth verbose w E).
  - left. exists e. reflexivity.
Qed.

(** One example of [main]: the banner, then the call, whose result is
    dropped. *)
Lemma bind_example {B} (depth : nat) (title : string) (n : Z)
    (k : option (Z * Z) -> M B) (w : world) :
  bind (print (nl ++ bar)%string)
    (fun _ => bind (print title)
       (fun _ => bind (print bar)
          (fun _ => bind (shors_algorithm depth n true) k))) w
  = match fst (shors_algorithm depth n true (printed w (banner title))) with
    | Ret x => k x (snd (shors_algorithm depth n true
                           (printed w (banner title))))
    | Raise e => (Raise e, snd (shors_algorithm depth n true
                                  (printed w (banner title))))
    end.
Proof.
  rewrite bind_banner. unfold bind at 1.
  destruct (shors_algorithm depth n true (printed w (banner title)))
    as [[x|e] w']; reflexivity.
Qed.

End MainFacts.

(** X15: [main] runs its four examples in order on one generator.  Each
    call starts in the world the previous one left, after the three lines
    of its banner were printed and nothing else.  The first call that
    raises ends [main] with its exception, in the world it leaves, and the
    later examples are not run; if none raises, [main] returns in the
    world the fourth call leaves.  A call that does not raise returns the
    prime factors of its number, 15, 21, 35 or 91, in either order. *)
Theorem main_runs_examples (F : FloatOps) (depth : nat) (w : world) :
  let r1 := shors_algorithm depth 15 true
              (printed w (banner "Example 1: Factoring 15")) in
  let r2 := shors_algorithm depth 21 true
              (printed (snd r1) (banner "Example 2: Factoring 21")) in
  let r3 := shors_algorithm depth 35 true
              (printed (snd r2) (banner "Example 3: Factoring 35")) in
  let r4 := shors_algorithm depth 91 true
              (printed (snd r3) (banner "Example 4: Factoring 91")) in
  main depth w
  = match fst r1, fst r2, fst r3, fst r4 with
    | Raise e, _, _, _ => (Raise e, snd r1)
    | Ret _, Raise e, _, _ => (Raise e, snd r2)
    | Ret _, Ret _, Raise e, _ => (Raise e, snd r3)
    | Ret _, Ret _, Ret _, Raise e => (Raise e, snd r4)
    | Ret _, Ret _, Ret _, Ret _ => (Ret tt, snd r4)
    end /\
  ((exists e, fst r1 = Raise e)
   \/ fst r1 = Ret (Some (3, 5)) \/ fst r1 = Ret (Some (5, 3))) /\
  ((exists e, fst r2 = Raise e)
   \/ fst r2 = Ret (Some (3, 7)) \/ fst r2 = Ret (Some (7, 3))) /\
  ((exists e, fst r3 = Raise e)
   \/ fst r3 = Ret (Some (5, 7)) \/ fst r3 = Ret (Some (7, 5))) /\
  ((exists e, fst r4 = Raise e)
   \/ fst r4 = Ret (Some (7, 13)) \/ fst r4 = Ret (Some (13, 7))).
Proof.
  intros r1 r2 r3 r4.
  assert (Hcall : forall n w0 a b,
             2 < n ->
             (forall p q, nontrivial_pair n p q ->
                          (p, q) = (a, b) \/ (p, q) = (b, a)) ->
             (exists e, fst (shors_algorithm depth n true w0) = Raise e)
             \/ fst (shors_algorithm depth n true w0) = Ret (Some (a, b))
             \/ fst (shors_algorithm depth n true w0) = Ret (Some (b, a))).
  { intros n w0 a b Hn Hpairs.
    destruct (call_cases depth n true w0 Hn) as [He | (p & q & E & Hnt)];
      [now left|].
    right. rewrite E. destruct (Hpairs p q Hnt) as [-> | ->]; auto. }
  split; [|split; [|split; [|split]]].
  - unfold main. rewrite bind_example. fold r1.
    destruct (fst r1) as [x1|e1]; [|reflexivity].
    rewrite bind_example. fold r2.
    destruct (fst r2) as [x2|e2]; [|reflexivity].
    rewrite bind_example. fold r3.
    destruct (fst r3) as [x3|e3]; [|reflexivity].
    rewrite bind_example. fold r4.
    destruct (fst r4) as [x4|e4]; reflexivity.
  - apply Hcall; [lia | exact pairs_of_15].
  - apply Hcall; [lia | exact pairs_of_21].
  - apply Hcall; [lia | exact pairs_of_35].
  - apply Hcall; [lia | exact pairs_of_91].
Qed.

Lemma main_runs_examples_witness :
  fst (main (float_ops := ideal_float) 0 (fresh_world (fun _ => 0))) = Ret tt /\
  fst (main (float_ops := ideal_float) 0 (fresh_world (fun _ => 12)))
  = Raise RecursionError.
Proof.
  split.
  - rewrite (proj1 (main_runs_examples ideal_float 0
                      (fresh_world (fun _ => 0)))).
    vm_compute. reflexivity.
  - rewrite (proj1 (main_runs_examples ideal_float 0
                      (fresh_world (fun _ => 12)))).
    vm_compute. reflexivity.
Defined.
